(** * EV1527 RF remote decoder (AVR): the timing macros, the decoded word
      and the pulse-pair state machine.

    [Sources/ev1527.h] holds the timing thresholds, the three classification
    macros and the packed result type [ev1527_T].  The macros are textual, so
    their arithmetic is that of their operands' type; the operands are
    declared by the caller, which the header does not contain.  The operand
    arithmetic is therefore a parameter ([TickArith]): either exact integers
    or the 16-bit unsigned arithmetic of the AVR counter register TCNT1. *)

From Stdlib Require Import ZArith QArith Bool List Lia.
From Stdlib Require Import Floats.SpecFloat.
Import ListNotations.

Local Open Scope Z_scope.

(** ** Operand arithmetic *)

Inductive TickArith : Type :=
| Exact    (* unbounded integers *)
| Wrap16.  (* uint16_t on AVR: [unsigned int], modulo 2^16 *)

Definition wrap (A : TickArith) (z : Z) : Z :=
  match A with
  | Exact => z
  | Wrap16 => z mod 2 ^ 16
  end.

Definition tick_add (A : TickArith) (x y : Z) : Z := wrap A (x + y).
Definition tick_mul (A : TickArith) (x y : Z) : Z := wrap A (x * y).

(** A value a 16-bit counter can hold. *)
Definition is_u16 (z : Z) : Prop := 0 <= z < 2 ^ 16.

(** ** Protocol parameters and timing thresholds (ev1527.h, 115-134) *)

Definition EV_maxIndexData : Z := 23.
Definition HPL_min : Z := 450.
Definition HPL_Max : Z := 8500.

(** ** Validation macros (ev1527.h, 149-175) *)

(** [#define EV_pulseIsValid(_tickLow, _tickHigh)
      (((_tickLow + _tickHigh) > HPL_min) && ((_tickLow + _tickHigh) < HPL_Max))] *)
Definition EV_pulseIsValid (A : TickArith) (_tickLow _tickHigh : Z) : bool :=
  (tick_add A _tickLow _tickHigh >? HPL_min)
  && (tick_add A _tickLow _tickHigh <? HPL_Max).

(** [#define EV_PrembleCheck(_tickLow, _tickHigh)
      ((_tickLow >= 25*_tickHigh) && (_tickLow <= 40*_tickHigh))] *)
Definition EV_PrembleCheck (A : TickArith) (_tickLow _tickHigh : Z) : bool :=
  (_tickLow >=? tick_mul A 25 _tickHigh)
  && (_tickLow <=? tick_mul A 40 _tickHigh).

(** [#define EV_bitCheck(_tickLow, _tickHigh) ((_tickHigh >= 1.5*_tickLow) ? 1 : 0)]

    The constant 1.5 is a [double], so both operands are converted and the
    product and the comparison are floating-point ones: nothing wraps,
    whatever the operand type.  On tick counts the conversions and the
    product are exact (see [EV_bitCheck_binary32] below), so the comparison
    is the one on rationals, written here over [Q] with 1.5 = 3/2. *)
Definition EV_bitCheck (_tickLow _tickHigh : Z) : Z :=
  if Qle_bool ((3 # 2) * inject_Z _tickLow) (inject_Z _tickHigh) then 1 else 0.

(** The same macro in IEEE binary32, the [double] of avr-gcc (24-bit
    significand, exponents below 128), over the standard library's
    specification of floating-point arithmetic: the integer operands are
    converted with rounding to nearest even, then multiplied and compared. *)
Definition binary32_of_Z (z : Z) : spec_float :=
  binary_normalize 24 128 z 0 false.

Definition binary32_1_5 : spec_float := binary_normalize 24 128 3 (-1) false.

Definition EV_bitCheck_binary32 (_tickLow _tickHigh : Z) : Z :=
  if SFleb (SFmul 24 128 binary32_1_5 (binary32_of_Z _tickLow))
           (binary32_of_Z _tickHigh)
  then 1 else 0.

(** [f] is zero or a positive binary32 number with a full 24-bit
    significand, and its value is exactly [v / 2^24]. *)
Definition holds_exactly (f : spec_float) (v : Z) : bool :=
  match f with
  | S754_zero false => v =? 0
  | S754_finite false m e =>
      (Z.pos (digits2_pos m) =? 24) && (-24 <=? e)
      && (Z.pos m * 2 ^ (e + 24) =? v)
  | _ => false
  end.

(** ** The decoded word (ev1527.h, 187-198)

    [typedef union { uint32_t rawValue;
                     struct { uint32_t Address : 20; uint32_t Keys : 4;
                              uint32_t Detect : 1;   uint32_t Reserve : 7; } Bits;
                   } ev1527_T;]

    Both members of the union name the same 32-bit storage unit, so the value
    is the raw word and the bit-fields are views of it.  On AVR (avr-gcc,
    little-endian) bit-fields are allocated from the least significant bit
    of their unit in declaration order: [Address] is bits 0..19, [Keys] bits
    20..23, [Detect] bit 24 and [Reserve] bits 25..31. *)

Record ev1527_T : Type := Build_ev1527 { rawValue : Z }.

(** Reading and assigning the bit-field of [width] bits whose lowest bit is
    bit [pos] of the unit; an assignment keeps the low [width] bits of the
    value and leaves the other fields alone. *)
Definition field_get (pos width raw : Z) : Z :=
  Z.land (Z.shiftr raw pos) (Z.ones width).

Definition field_set (pos width raw v : Z) : Z :=
  Z.lor (Z.ldiff raw (Z.shiftl (Z.ones width) pos))
        (Z.shiftl (Z.land v (Z.ones width)) pos).

Module Bits.
Definition Address (e : ev1527_T) : Z := field_get 0 20 (rawValue e).
Definition Keys (e : ev1527_T) : Z := field_get 20 4 (rawValue e).
Definition Detect (e : ev1527_T) : Z := field_get 24 1 (rawValue e).
Definition Reserve (e : ev1527_T) : Z := field_get 25 7 (rawValue e).

Definition set_Address (e : ev1527_T) (v : Z) : ev1527_T :=
  Build_ev1527 (field_set 0 20 (rawValue e) v).
Definition set_Keys (e : ev1527_T) (v : Z) : ev1527_T :=
  Build_ev1527 (field_set 20 4 (rawValue e) v).
Definition set_Detect (e : ev1527_T) (v : Z) : ev1527_T :=
  Build_ev1527 (field_set 24 1 (rawValue e) v).
Definition set_Reserve (e : ev1527_T) (v : Z) : ev1527_T :=
  Build_ev1527 (field_set 25 7 (rawValue e) v).
End Bits.

(** The word is a [uint32_t]. *)
Definition is_u32 (z : Z) : Prop := 0 <= z < 2 ^ 32.

(** ** The frame decoder

    The header declares only [ev1527_Init] and [ev1527_deInit]; the
    interrupt routine that drives the macros is in the missing ev1527.c. *)

(** Modelled from the spec: the pulse sample of section 3, one HIGH and one
    LOW duration in timer ticks (the type is not in the header). *)
Record PulseSample : Type := Build_PulseSample { highTicks : Z; lowTicks : Z }.

(** Modelled from the spec: the decoder state of section 3, which the missing
    ev1527.c owns.  [bitIndex] is -1 while awaiting a preamble and otherwise
    the next bit slot, 0..23; [accumulator] is the 24-bit value under
    construction.  The fields [lastEdgeTicks] and [pendingLevel] belong to the
    edge handler that derives the pulse pairs before [onPulsePair] is called
    (section 6) and take no part in it. *)
Record DecoderState : Type :=
  Build_DecoderState { bitIndex : Z; accumulator : Z }.

Inductive Phase : Type := SEEKING_PREAMBLE | COLLECTING_BITS.

Definition phase (s : DecoderState) : Phase :=
  if bitIndex s =? -1 then SEEKING_PREAMBLE else COLLECTING_BITS.

(** Modelled from the spec: the decoder object of section 9, owning the
    decoder state and the decoded frame (missing with ev1527.c).  The frame
    is the header's [ev1527_T]. *)
Record Decoder : Type :=
  Build_Decoder { state : DecoderState; frame : ev1527_T }.

(** Modelled from the spec: the consumer's view {address, key, detected} of the
    decoded frame (section 3); the accessors are missing with ev1527.c. *)
Record DecodedFrame : Type :=
  Build_DecodedFrame { address : Z; key : Z; detected : bool }.

(** Modelled from the spec: the consumer accessors [readFrame] and
    [clearDetected] of section 6 (missing with ev1527.c), over the header's
    bit-fields. *)
Definition frame_view (e : ev1527_T) : DecodedFrame :=
  {| address := Bits.Address e;
     key := Bits.Keys e;
     detected := Bits.Detect e =? 1 |}.

Definition readFrame (d : Decoder) : DecodedFrame := frame_view (frame d).

Definition clearDetected (d : Decoder) : Decoder :=
  {| state := state d; frame := Bits.set_Detect (frame d) 0 |}.

(** Modelled from the spec: the reset to awaiting a preamble that section 3
    gives for a protocol error (missing with ev1527.c). *)
Definition seeking (s : DecoderState) : DecoderState :=
  {| bitIndex := -1; accumulator := accumulator s |}.

(** Modelled from the spec: [initialize] of section 6 (missing with
    ev1527.c) resets the state to awaiting a preamble and the frame to
    detected = false. *)
Definition initialize (d : Decoder) : Decoder :=
  {| state := {| bitIndex := -1; accumulator := 0 |};
     frame := Bits.set_Detect (frame d) 0 |}.

(** Modelled from the spec: the decoder as section 3 creates it at
    initialization (missing with ev1527.c), here from zeroed storage. *)
Definition power_up : Decoder :=
  initialize {| state := {| bitIndex := 0; accumulator := 0 |};
                frame := Build_ev1527 0 |}.

(** Modelled from the spec: the write of a completed frame (section 4.1,
    missing with ev1527.c): the top 20 bits of the 24-bit accumulator go to
    the address, the bottom 4 to the key, and the detection flag is set. *)
Definition write_frame (e : ev1527_T) (acc : Z) : ev1527_T :=
  Bits.set_Detect
    (Bits.set_Keys (Bits.set_Address e (Z.shiftr acc 4)) (Z.land acc 15)) 1.

(** Modelled from the spec: [onPulsePair] of section 4.1, the data path of
    the missing ev1527.c, over the header's macros and decoded word.
    - validation, for every pair: a total duration that is not valid returns
      the machine to awaiting a preamble and drops the frame in progress;
    - awaiting a preamble: a pair that passes the preamble test starts the
      collection at bit slot 0 with a cleared accumulator, any other pair
      changes nothing;
    - collecting: the bit is put at slot [bitIndex], slot 0 being the most
      significant of the 24 bits; when slot [EV_maxIndexData] is filled the
      top 20 bits of the accumulator are written as the address and the
      bottom 4 as the key, together with the detection flag, and the machine
      awaits a preamble again. *)
Definition onPulsePair (A : TickArith) (d : Decoder) (highTicks lowTicks : Z)
  : Decoder :=
  let s := state d in
  if negb (EV_pulseIsValid A lowTicks highTicks) then
    {| state := seeking s; frame := frame d |}
  else if bitIndex s =? -1 then
    if EV_PrembleCheck A lowTicks highTicks then
      {| state := {| bitIndex := 0; accumulator := 0 |}; frame := frame d |}
    else d
  else
    let bit := EV_bitCheck lowTicks highTicks in
    let acc := Z.lor (accumulator s)
                     (Z.shiftl bit (EV_maxIndexData - bitIndex s)) in
    let idx := bitIndex s + 1 in
    if idx =? EV_maxIndexData + 1 then
      {| state := {| bitIndex := -1; accumulator := acc |};
         frame := write_frame (frame d) acc |}
    else
      {| state := {| bitIndex := idx; accumulator := acc |}; frame := frame d |}.

Definition feed (A : TickArith) (d : Decoder) (p : PulseSample) : Decoder :=
  onPulsePair A d (highTicks p) (lowTicks p).

(** The decoder after a sequence of pulse pairs, oldest first. *)
Definition run (A : TickArith) (d : Decoder) (ps : list PulseSample)
  : Decoder :=
  fold_left (feed A) ps d.

(** The ranges the spec gives the decoder's data: a bit index in -1..23, a
    24-bit accumulator, and the header's 32-bit word. *)
Definition well_formed (d : Decoder) : Prop :=
  -1 <= bitIndex (state d) <= EV_maxIndexData /\
  0 <= accumulator (state d) < 2 ^ 24 /\
  is_u32 (rawValue (frame d)).

(** ** Reading a pulse train as the decoder does *)

Definition valid_pulse (A : TickArith) (p : PulseSample) : bool :=
  EV_pulseIsValid A (lowTicks p) (highTicks p).

Definition preamble_pulse (A : TickArith) (p : PulseSample) : bool :=
  EV_PrembleCheck A (lowTicks p) (highTicks p).

Definition pulse_bit (p : PulseSample) : Z :=
  EV_bitCheck (lowTicks p) (highTicks p).

(** The number written by a train of bit pulses, first pulse most
    significant. *)
Definition shift_in (v : Z) (p : PulseSample) : Z := 2 * v + pulse_bit p.

Definition bits_value (ps : list PulseSample) : Z := fold_left shift_in ps 0.

(** The train [ps] holds a complete frame that reads as [f]: a valid preamble
    pair followed at once by 24 valid bit pairs, whose top 20 bits are the
    address of [f] and whose bottom 4 bits are its key. *)
Definition complete_frame_in (A : TickArith) (ps : list PulseSample)
    (f : DecodedFrame) : Prop :=
  exists before pre bits after,
    ps = before ++ pre :: bits ++ after /\
    valid_pulse A pre = true /\ preamble_pulse A pre = true /\
    length bits = 24%nat /\ forallb (valid_pulse A) bits = true /\
    address f = bits_value bits / 16 /\ key f = bits_value bits mod 16.

(** What the decoder state records of the train [ps] fed so far. *)
Definition collecting_inv (A : TickArith) (ps : list PulseSample)
    (s : DecoderState) : Prop :=
  bitIndex s = -1 \/
  exists before pre bits,
    ps = before ++ pre :: bits /\
    valid_pulse A pre = true /\ preamble_pulse A pre = true /\
    forallb (valid_pulse A) bits = true /\
    bitIndex s = Z.of_nat (length bits) /\ bitIndex s <= EV_maxIndexData /\
    accumulator s = bits_value bits * 2 ^ (24 - bitIndex s).

Definition frame_inv (A : TickArith) (ps : list PulseSample)
    (e : ev1527_T) : Prop :=
  Bits.Detect e = 0 \/
  (Bits.Detect e = 1 /\ complete_frame_in A ps (frame_view e)).

(** The nominal pulses of the header (T = 300): logic 1 is a long HIGH and a
    short LOW, logic 0 a short HIGH and a long LOW. *)
Definition nominal_pulse (b : bool) : PulseSample :=
  if b then {| highTicks := 900; lowTicks := 300 |}
  else {| highTicks := 300; lowTicks := 900 |}.

(** The [n] low bits of [v] as nominal pulses, most significant first. *)
Fixpoint nominal_bits (n : nat) (v : Z) : list PulseSample :=
  match n with
  | O => []
  | S m => nominal_pulse (Z.testbit v (Z.of_nat m)) :: nominal_bits m v
  end.

Definition nominal_frame (addr k : Z) : list PulseSample :=
  nominal_bits 20 addr ++ nominal_bits 4 k.

(** ** Proof steps for bitwise goals *)

Ltac testbits :=
  repeat first
    [ rewrite Z.land_spec | rewrite Z.lor_spec | rewrite Z.ldiff_spec
    | rewrite Z.shiftr_spec by lia | rewrite Z.shiftl_spec by lia
    | rewrite Z.testbit_ones by lia ].

Ltac cmp_cases :=
  repeat match goal with
    | |- context [?a <=? ?b] => destruct (Z.leb_spec a b); try lia
    | |- context [?a <? ?b] => destruct (Z.ltb_spec a b); try lia
    end.

(** ** Facts on the macros *)

Lemma wrap_Exact z : wrap Exact z = z.
Proof. reflexivity. Qed.

Lemma wrap16_small z : is_u16 z -> wrap Wrap16 z = z.
Proof. intros H. unfold wrap. apply Z.mod_small. exact H. Qed.

Lemma wrap16_range z : is_u16 (wrap Wrap16 z).
Proof. unfold is_u16, wrap. apply Z.mod_pos_bound. reflexivity. Qed.

Lemma EV_pulseIsValid_Exact tl th :
  EV_pulseIsValid Exact tl th = true <-> HPL_min < tl + th < HPL_Max.
Proof.
  unfold EV_pulseIsValid, tick_add, wrap.
  rewrite andb_true_iff, Z.gtb_ltb, !Z.ltb_lt. tauto.
Qed.

Lemma EV_PrembleCheck_Exact tl th :
  EV_PrembleCheck Exact tl th = true <-> 25 * th <= tl <= 40 * th.
Proof.
  unfold EV_PrembleCheck, tick_mul, wrap.
  rewrite andb_true_iff, Z.geb_leb, !Z.leb_le. tauto.
Qed.

Lemma Qle_three_halves tl th :
  Qle ((3 # 2) * inject_Z tl) (inject_Z th) <-> 3 * tl <= 2 * th.
Proof. cbv [Qle Qmult inject_Z Qnum Qden Pos.mul]. lia. Qed.

Lemma EV_bitCheck_spec tl th :
  EV_bitCheck tl th = (if 3 * tl <=? 2 * th then 1 else 0).
Proof.
  unfold EV_bitCheck.
  destruct (Qle_bool ((3 # 2) * inject_Z tl) (inject_Z th)) eqn:E.
  - apply Qle_bool_iff, Qle_three_halves in E.
    destruct (Z.leb_spec (3 * tl) (2 * th)); [reflexivity | lia].
  - destruct (Z.leb_spec (3 * tl) (2 * th)) as [L | L]; [| reflexivity].
    apply Qle_three_halves, Qle_bool_iff in L. congruence.
Qed.

(** ** The bit check in binary32 *)

Lemma digits2_pos_size m : digits2_pos m = Pos.size m.
Proof. induction m; cbn; now rewrite ?IHm. Qed.

Lemma digits_iter_xO q k :
  digits2_pos (Pos.iter xO q k) = (digits2_pos q + k)%positive.
Proof.
  induction k as [| k IH] using Pos.peano_ind.
  - cbn. lia.
  - rewrite Pos.iter_succ. cbn [digits2_pos]. rewrite IH. lia.
Qed.

Lemma value_iter_xO q k : Z.pos (Pos.iter xO q k) = Z.pos q * 2 ^ Z.pos k.
Proof.
  induction k as [| k IH] using Pos.peano_ind.
  - cbn. lia.
  - rewrite Pos.iter_succ, Pos2Z.inj_xO, IH, Pos2Z.inj_succ, Z.pow_succ_r by lia.
    ring.
Qed.

Lemma iter_pos_nat {A} (f : A -> A) p x :
  iter_pos f p x = Nat.iter (Pos.to_nat p) f x.
Proof.
  revert x. induction p as [p IH | p IH |]; intros x; cbn [iter_pos].
  - rewrite !IH, Pos2Nat.inj_xI.
    replace (S (2 * Pos.to_nat p))%nat
      with (Pos.to_nat p + (Pos.to_nat p + 1))%nat by lia.
    now rewrite !Nat.iter_add.
  - rewrite !IH, Pos2Nat.inj_xO.
    replace (2 * Pos.to_nat p)%nat with (Pos.to_nat p + Pos.to_nat p)%nat by lia.
    now rewrite Nat.iter_add.
  - reflexivity.
Qed.

Lemma shr_1_iter_xO n q :
  Nat.iter n shr_1 {| shr_m := Z.pos (Nat.iter n xO q); shr_r := false; shr_s := false |}
  = {| shr_m := Z.pos q; shr_r := false; shr_s := false |}.
Proof.
  induction n as [| n IH]; [reflexivity |].
  rewrite Nat.iter_succ_r. cbn [Nat.iter shr_1 orb]. exact IH.
Qed.

Lemma shr_exact q k :
  iter_pos shr_1 k {| shr_m := Z.pos (Pos.iter xO q k); shr_r := false; shr_s := false |}
  = {| shr_m := Z.pos q; shr_r := false; shr_s := false |}.
Proof.
  rewrite iter_pos_nat, Pos2Nat.inj_iter. apply shr_1_iter_xO.
Qed.

Lemma fexp_normal x : -125 <= x -> fexp 24 128 x = x - 24.
Proof. intros H. unfold fexp, emin. lia. Qed.

Lemma shr_fexp_canonical m e :
  Z.pos (digits2_pos m) = 24 -> -149 <= e ->
  shr_fexp 24 128 (Z.pos m) e loc_Exact
  = ({| shr_m := Z.pos m; shr_r := false; shr_s := false |}, e).
Proof.
  intros D E. unfold shr_fexp. cbn [Zdigits2 shr_record_of_loc].
  rewrite D, fexp_normal by lia.
  replace (24 + e - 24 - e) with 0 by lia. reflexivity.
Qed.

Lemma round_canonical s m e :
  Z.pos (digits2_pos m) = 24 -> -149 <= e <= 104 ->
  binary_round_aux 24 128 s (Z.pos m) e loc_Exact = S754_finite s m e.
Proof.
  intros D E. unfold binary_round_aux.
  rewrite shr_fexp_canonical by (assumption || lia).
  cbn [shr_m loc_of_shr_record round_nearest_even].
  rewrite shr_fexp_canonical by (assumption || lia).
  cbn [shr_m].
  assert ((e <=? 128 - 24) = true) as -> by (apply Z.leb_le; lia).
  reflexivity.
Qed.

Lemma round_shift s q k e :
  Z.pos (digits2_pos q) = 24 -> -149 <= e + Z.pos k <= 104 ->
  binary_round_aux 24 128 s (Z.pos (Pos.iter xO q k)) e loc_Exact
  = S754_finite s q (e + Z.pos k).
Proof.
  intros D E. unfold binary_round_aux.
  assert (shr_fexp 24 128 (Z.pos (Pos.iter xO q k)) e loc_Exact
          = ({| shr_m := Z.pos q; shr_r := false; shr_s := false |}, e + Z.pos k))
    as ->.
  { unfold shr_fexp. cbn [Zdigits2 shr_record_of_loc].
    rewrite digits_iter_xO, Pos2Z.inj_add, D, fexp_normal by lia.
    replace (24 + Z.pos k + e - 24 - e) with (Z.pos k) by lia.
    cbn [shr]. now rewrite shr_exact. }
  cbn [shr_m loc_of_shr_record round_nearest_even].
  rewrite shr_fexp_canonical by (assumption || lia).
  cbn [shr_m].
  assert ((e + Z.pos k <=? 128 - 24) = true) as -> by (apply Z.leb_le; lia).
  reflexivity.
Qed.

Lemma round_exact s M q e j :
  Z.pos (digits2_pos q) = 24 -> 0 <= j -> Z.pos M = Z.pos q * 2 ^ j ->
  -149 <= e + j <= 104 ->
  binary_round_aux 24 128 s (Z.pos M) e loc_Exact = S754_finite s q (e + j).
Proof.
  intros D J V E. destruct j as [| k | k]; [| | lia].
  - rewrite Z.pow_0_r, Z.mul_1_r in V. injection V as ->.
    rewrite Z.add_0_r in *. now apply round_canonical.
  - rewrite <- value_iter_xO in V. injection V as ->. now apply round_shift.
Qed.

Lemma digits24_range m :
  Z.pos (digits2_pos m) = 24 -> 2 ^ 23 <= Z.pos m < 2 ^ 24.
Proof.
  rewrite digits2_pos_size. intros D.
  assert (Pos.size m = 24%positive) as S by congruence.
  pose proof (Pos.size_gt m) as G. pose proof (Pos.size_le m) as L.
  rewrite S in G, L.
  change (2 ^ 24)%positive with 16777216%positive in G, L.
  apply Pos2Z.pos_lt_pos in G. apply Pos2Z.pos_le_pos in L.
  rewrite Pos2Z.inj_xO in L.
  change (2 ^ 23) with 8388608. change (2 ^ 24) with 16777216. lia.
Qed.

Lemma digits_below p : Z.pos p < 2 ^ 24 -> Z.pos (digits2_pos p) <= 24.
Proof.
  intros B. rewrite digits2_pos_size.
  pose proof (Pos.size_le p) as L. apply Pos2Z.pos_le_pos in L.
  rewrite Pos2Z.inj_xO, Pos2Z.inj_pow in L.
  destruct (Z.le_gt_cases (Z.pos (Pos.size p)) 24) as [H | H]; [exact H |].
  assert (2 ^ 25 <= 2 ^ Z.pos (Pos.size p)) by (apply Z.pow_le_mono_r; lia).
  change (2 ^ 25) with (2 * 2 ^ 24) in *. lia.
Qed.

Lemma scaled_lt m1 m2 e1 e2 :
  2 ^ 23 <= m1 < 2 ^ 24 -> 2 ^ 23 <= m2 < 2 ^ 24 ->
  -24 <= e1 -> e1 < e2 ->
  m1 * 2 ^ (e1 + 24) < m2 * 2 ^ (e2 + 24).
Proof.
  change (2 ^ 23) with 8388608. change (2 ^ 24) with 16777216.
  intros M1 M2 E1 L.
  replace (e2 + 24) with ((e2 - e1 - 1) + 1 + (e1 + 24)) by lia.
  rewrite (Z.pow_add_r 2 (e2 - e1 - 1 + 1) (e1 + 24)) by lia.
  rewrite (Z.pow_add_r 2 (e2 - e1 - 1) 1) by lia. change (2 ^ 1) with 2.
  pose proof (Z.pow_pos_nonneg 2 (e1 + 24) ltac:(lia) ltac:(lia)) as P.
  pose proof (Z.pow_pos_nonneg 2 (e2 - e1 - 1) ltac:(lia) ltac:(lia)) as Q.
  rewrite Z.mul_assoc. apply Z.mul_lt_mono_pos_r; [exact P |].
  apply Z.lt_le_trans with (16777216 * 1); [lia |].
  replace (m2 * (2 ^ (e2 - e1 - 1) * 2)) with ((2 * m2) * 2 ^ (e2 - e1 - 1)) by ring.
  apply Z.mul_le_mono_nonneg; lia.
Qed.

Lemma SFleb_holds_exactly f1 f2 v1 v2 :
  holds_exactly f1 v1 = true -> holds_exactly f2 v2 = true ->
  SFleb f1 f2 = (v1 <=? v2).
Proof.
  unfold holds_exactly.
  destruct f1 as [[|] | | | [|] m1 e1]; try discriminate;
  destruct f2 as [[|] | | | [|] m2 e2]; try discriminate;
  rewrite ?andb_true_iff, ?Z.eqb_eq, ?Z.leb_le.
  - intros -> ->. reflexivity.
  - intros -> [[D2 E2] <-]. unfold SFleb, SFcompare. symmetry. apply Z.leb_le.
    pose proof (Z.pow_pos_nonneg 2 (e2 + 24)).
    apply Z.mul_nonneg_nonneg; lia.
  - intros [[D1 E1] <-] ->. unfold SFleb, SFcompare. symmetry. apply Z.leb_gt.
    pose proof (Z.pow_pos_nonneg 2 (e1 + 24)).
    apply Z.mul_pos_pos; lia.
  - intros [[D1 E1] <-] [[D2 E2] <-].
    apply digits24_range in D1, D2.
    unfold SFleb, SFcompare.
    destruct (Z.compare_spec e1 e2) as [-> | L | G].
    + rewrite Pos.compare_cont_spec. cbn [Pos.switch_Eq].
      pose proof (Z.pow_pos_nonneg 2 (e2 + 24) ltac:(lia) ltac:(lia)) as P.
      destruct (Pos.compare_spec m1 m2) as [-> | L | G]; symmetry.
      * apply Z.leb_le. lia.
      * apply Z.leb_le. apply Z.mul_le_mono_nonneg_r; lia.
      * apply Z.leb_gt. apply Z.mul_lt_mono_pos_r; lia.
    + symmetry. apply Z.leb_le. apply Z.lt_le_incl. now apply scaled_lt.
    + symmetry. apply Z.leb_gt. now apply scaled_lt.
Qed.

(** Converting a positive integer below 2^24 is exact. *)
Lemma binary32_of_Z_pos z :
  0 < z < 2 ^ 24 ->
  exists m e,
    binary32_of_Z z = S754_finite false m e /\
    Z.pos (digits2_pos m) = 24 /\ -23 <= e <= 0 /\
    Z.pos m * 2 ^ (e + 24) = z * 2 ^ 24.
Proof.
  intros [P B]. destruct z as [| p | p]; try lia.
  pose proof (digits_below p B) as D.
  unfold binary32_of_Z, binary_normalize, binary_round.
  rewrite Z.add_0_r, fexp_normal by lia. unfold shl_align.
  rewrite Z.sub_0_r.
  destruct (Z.pos (digits2_pos p) - 24) as [| k | k] eqn:K; [| lia |].
  - exists p, 0. rewrite round_canonical by lia.
    repeat split; lia.
  - assert (Z.pos k = 24 - Z.pos (digits2_pos p)) as Hk by lia.
    exists (Pos.iter xO p k), (Z.neg k).
    assert (Z.pos (digits2_pos (Pos.iter xO p k)) = 24) as D'.
    { rewrite digits_iter_xO, Pos2Z.inj_add. lia. }
    rewrite round_canonical by lia.
    repeat split; try lia.
    rewrite value_iter_xO, <- Z.mul_assoc, <- Z.pow_add_r by lia.
    f_equal. f_equal. lia.
Qed.

Lemma binary32_of_Z_exact z :
  0 <= z < 2 ^ 24 -> holds_exactly (binary32_of_Z z) (z * 2 ^ 24) = true.
Proof.
  intros [N B]. destruct (Z.eq_dec z 0) as [-> | NZ]; [reflexivity |].
  destruct (binary32_of_Z_pos z) as (m & e & -> & D & E & V); [lia |].
  unfold holds_exactly. rewrite D, V, Z.eqb_refl, Z.eqb_refl.
  assert ((-24 <=? e) = true) as -> by (apply Z.leb_le; lia). reflexivity.
Qed.

Lemma binary32_1_5_eq : binary32_1_5 = S754_finite false 12582912 (-23).
Proof. reflexivity. Qed.

(** Multiplying a converted tick count by 1.5 is exact. *)
Lemma binary32_mul_1_5_exact z :
  0 <= z < 2 ^ 22 ->
  holds_exactly (SFmul 24 128 binary32_1_5 (binary32_of_Z z)) (3 * z * 2 ^ 23)
  = true.
Proof.
  intros [N B]. destruct (Z.eq_dec z 0) as [-> | NZ]; [reflexivity |].
  change (2 ^ 22) with 4194304 in B.
  destruct (binary32_of_Z_pos z) as (m & e & Hz & D & E & V);
    [change (2 ^ 24) with 16777216; lia |].
  destruct (binary32_of_Z_pos (3 * z)) as (q & e3 & _ & D3 & E3 & V3);
    [change (2 ^ 24) with 16777216; lia |].
  rewrite Hz, binary32_1_5_eq. unfold SFmul. cbn [xorb].
  pose proof (digits24_range m D) as Rm. pose proof (digits24_range q D3) as Rq.
  assert (e <= e3) as Le.
  { destruct (Z.le_gt_cases e e3) as [H | H]; [exact H | exfalso].
    pose proof (scaled_lt (Z.pos q) (Z.pos m) e3 e Rq Rm ltac:(lia) H) as S.
    rewrite V, V3 in S. change (2 ^ 24) with 16777216 in S. lia. }
  assert (3 * Z.pos m = Z.pos q * 2 ^ (e3 - e)) as M3.
  { apply (Z.mul_reg_r _ _ (2 ^ (e + 24))).
    - pose proof (Z.pow_pos_nonneg 2 (e + 24)). lia.
    - rewrite <- !Z.mul_assoc, <- Z.pow_add_r by lia.
      replace (e3 - e + (e + 24)) with (e3 + 24) by lia.
      rewrite V, V3. ring. }
  assert (Z.pos (12582912 * m) = Z.pos q * 2 ^ (22 + (e3 - e))) as M.
  { rewrite Pos2Z.inj_mul, Z.pow_add_r by lia.
    change (Z.pos 12582912) with (2 ^ 22 * 3).
    rewrite <- Z.mul_assoc, M3. ring. }
  rewrite (round_exact false _ q _ (22 + (e3 - e)) D3 ltac:(lia) M) by lia.
  unfold holds_exactly. rewrite D3, Z.eqb_refl.
  assert ((-24 <=? -23 + e + (22 + (e3 - e))) = true) as -> by (apply Z.leb_le; lia).
  cbn [andb]. apply Z.eqb_eq.
  replace (-23 + e + (22 + (e3 - e)) + 24) with (e3 + 23) by lia.
  replace (e3 + 24) with (e3 + 23 + 1) in V3 by lia.
  rewrite Z.pow_add_r in V3 by lia.
  change (2 ^ 1) with 2 in V3. change (2 ^ 24) with 16777216 in V3.
  change (2 ^ 23) with 8388608. lia.
Qed.

Lemma EV_bitCheck_binary32_exact tl th :
  0 <= tl < 2 ^ 22 -> 0 <= th < 2 ^ 24 ->
  EV_bitCheck_binary32 tl th = EV_bitCheck tl th.
Proof.
  intros Rl Rh. unfold EV_bitCheck_binary32.
  rewrite (SFleb_holds_exactly _ _ _ _ (binary32_mul_1_5_exact tl Rl)
             (binary32_of_Z_exact th Rh)).
  rewrite EV_bitCheck_spec.
  change (2 ^ 24) with (2 * 2 ^ 23).
  destruct (Z.leb_spec (3 * tl * 2 ^ 23) (th * (2 * 2 ^ 23)));
    destruct (Z.leb_spec (3 * tl) (2 * th)); try reflexivity;
    change (2 ^ 23) with 8388608 in *; lia.
Qed.

(** ** Bit-fields of the decoded word *)

Lemma field_get_set_same pos width raw v :
  0 <= pos -> 0 <= width ->
  field_get pos width (field_set pos width raw v) = Z.land v (Z.ones width).
Proof.
  intros Hp Hw. unfold field_get, field_set.
  apply Z.bits_inj'. intros i Hi. testbits.
  replace (i + pos - pos) with i by lia.
  cmp_cases; cbn; rewrite ?andb_false_r, ?andb_true_r, ?orb_false_l; try reflexivity.
Qed.

Lemma field_get_set_other pos width pos' width' raw v :
  0 <= pos -> 0 <= width -> 0 <= pos' -> 0 <= width' ->
  pos' + width' <= pos \/ pos + width <= pos' ->
  field_get pos' width' (field_set pos width raw v) = field_get pos' width' raw.
Proof.
  intros Hp Hw Hp' Hw' D. unfold field_get, field_set.
  apply Z.bits_inj'. intros i Hi. testbits.
  destruct (Z.ltb_spec i width') as [L | L];
    [| cbn; rewrite !andb_false_r; reflexivity].
  destruct (Z.leb_spec 0 i); [| lia]. cbn. rewrite !andb_true_r.
  assert ((0 <=? i + pos' - pos) && (i + pos' - pos <? width) = false) as ->.
  { apply andb_false_iff. rewrite Z.leb_gt, Z.ltb_ge. lia. }
  cbn. now rewrite andb_true_r, andb_false_r, orb_false_r.
Qed.

Lemma below_pow2_bits n x :
  0 <= n -> 0 <= x -> (forall i, n <= i -> Z.testbit x i = false) -> x < 2 ^ n.
Proof.
  intros Hn Hx Hb.
  assert (x mod 2 ^ n = x) as <-.
  { apply Z.bits_inj'. intros i Hi.
    destruct (Z.lt_ge_cases i n).
    - now apply Z.mod_pow2_bits_low.
    - rewrite Z.mod_pow2_bits_high by lia. symmetry. now apply Hb. }
  apply Z.mod_pos_bound. now apply Z.pow_pos_nonneg.
Qed.

Lemma bits_above_pow2 n x i :
  0 <= x < 2 ^ n -> n <= i -> Z.testbit x i = false.
Proof.
  intros Hx Hi.
  destruct (Z.lt_ge_cases n 0) as [N | N].
  { rewrite Z.pow_neg_r in Hx by assumption. lia. }
  rewrite <- (Z.mod_small x (2 ^ n)) by assumption.
  apply Z.mod_pow2_bits_high. lia.
Qed.

Lemma field_set_u32 pos width raw v :
  0 <= pos -> 0 <= width -> pos + width <= 32 -> is_u32 raw ->
  is_u32 (field_set pos width raw v).
Proof.
  intros Hp Hw Hpw [H0 H32]. unfold is_u32, field_set.
  assert (0 <= Z.land v (Z.ones width)) as Hv.
  { apply Z.land_nonneg. right. rewrite Z.ones_equiv. pose proof (Z.pow_pos_nonneg 2 width). lia. }
  split.
  - apply Z.lor_nonneg. split.
    + apply Z.ldiff_nonneg. now left.
    + now apply Z.shiftl_nonneg.
  - apply below_pow2_bits; [lia | |].
    + apply Z.lor_nonneg. split.
      * apply Z.ldiff_nonneg. now left.
      * now apply Z.shiftl_nonneg.
    + intros i Hi. testbits.
      rewrite (bits_above_pow2 32 raw i) by lia.
      assert ((0 <=? i - pos) && (i - pos <? width) = false) as ->.
      { apply andb_false_iff. rewrite Z.leb_gt, Z.ltb_ge. lia. }
      now rewrite andb_false_r.
Qed.

Lemma raw_low24 raw :
  raw mod 2 ^ 24 = field_get 0 20 raw + 2 ^ 20 * field_get 20 4 raw.
Proof.
  unfold field_get. rewrite !Z.land_ones, !Z.shiftr_div_pow2 by lia.
  change (2 ^ 0) with 1. rewrite Z.div_1_r.
  change (2 ^ 24) with 16777216. change (2 ^ 20) with 1048576. change (2 ^ 4) with 16.
  Z.div_mod_to_equations. lia.
Qed.

(** ** Field accessors of [ev1527_T] *)

Lemma Address_set_Address e v : Bits.Address (Bits.set_Address e v) = v mod 2 ^ 20.
Proof.
  unfold Bits.Address, Bits.set_Address. cbn [rawValue].
  rewrite field_get_set_same by lia. apply Z.land_ones. lia.
Qed.

Lemma Keys_set_Keys e v : Bits.Keys (Bits.set_Keys e v) = v mod 2 ^ 4.
Proof.
  unfold Bits.Keys, Bits.set_Keys. cbn [rawValue].
  rewrite field_get_set_same by lia. apply Z.land_ones. lia.
Qed.

Lemma Detect_set_Detect e v : Bits.Detect (Bits.set_Detect e v) = v mod 2.
Proof.
  unfold Bits.Detect, Bits.set_Detect. cbn [rawValue].
  rewrite field_get_set_same by lia. apply (Z.land_ones v 1). lia.
Qed.

Lemma Address_set_Keys e v : Bits.Address (Bits.set_Keys e v) = Bits.Address e.
Proof. apply field_get_set_other; lia. Qed.

Lemma Address_set_Detect e v : Bits.Address (Bits.set_Detect e v) = Bits.Address e.
Proof. apply field_get_set_other; lia. Qed.

Lemma Keys_set_Address e v : Bits.Keys (Bits.set_Address e v) = Bits.Keys e.
Proof. apply field_get_set_other; lia. Qed.

Lemma Keys_set_Detect e v : Bits.Keys (Bits.set_Detect e v) = Bits.Keys e.
Proof. apply field_get_set_other; lia. Qed.

Lemma Detect_set_Address e v : Bits.Detect (Bits.set_Address e v) = Bits.Detect e.
Proof. apply field_get_set_other; lia. Qed.

Lemma Detect_set_Keys e v : Bits.Detect (Bits.set_Keys e v) = Bits.Detect e.
Proof. apply field_get_set_other; lia. Qed.

Lemma Reserve_set_Address e v : Bits.Reserve (Bits.set_Address e v) = Bits.Reserve e.
Proof. apply field_get_set_other; lia. Qed.

Lemma Reserve_set_Keys e v : Bits.Reserve (Bits.set_Keys e v) = Bits.Reserve e.
Proof. apply field_get_set_other; lia. Qed.

Lemma Reserve_set_Detect e v : Bits.Reserve (Bits.set_Detect e v) = Bits.Reserve e.
Proof. apply field_get_set_other; lia. Qed.

Create Rewrite HintDb ev_fields.
#[local] Hint Rewrite
  Address_set_Address Keys_set_Keys Detect_set_Detect
  Address_set_Keys Address_set_Detect Keys_set_Address Keys_set_Detect
  Detect_set_Address Detect_set_Keys
  Reserve_set_Address Reserve_set_Keys Reserve_set_Detect : ev_fields.

Lemma write_frame_Address e acc :
  Bits.Address (write_frame e acc) = (acc / 16) mod 2 ^ 20.
Proof.
  unfold write_frame. autorewrite with ev_fields.
  now rewrite Z.shiftr_div_pow2 by lia.
Qed.

Lemma write_frame_Keys e acc : Bits.Keys (write_frame e acc) = acc mod 16.
Proof.
  unfold write_frame. autorewrite with ev_fields.
  change 15 with (Z.ones 4). rewrite Z.land_ones by lia.
  change (2 ^ 4) with 16. now rewrite Z.mod_mod by lia.
Qed.

Lemma write_frame_Detect e acc : Bits.Detect (write_frame e acc) = 1.
Proof. unfold write_frame. now autorewrite with ev_fields. Qed.

Lemma write_frame_Reserve e acc :
  Bits.Reserve (write_frame e acc) = Bits.Reserve e.
Proof. unfold write_frame. now autorewrite with ev_fields. Qed.

Lemma write_frame_u32 e acc :
  is_u32 (rawValue e) -> is_u32 (rawValue (write_frame e acc)).
Proof.
  intros H. unfold write_frame, Bits.set_Detect, Bits.set_Keys, Bits.set_Address.
  cbn [rawValue]. repeat apply field_set_u32; try lia. exact H.
Qed.

(** ** The two arithmetics agree where nothing wraps *)

Lemma EV_pulseIsValid_no_wrap tl th :
  is_u16 (tl + th) -> EV_pulseIsValid Wrap16 tl th = EV_pulseIsValid Exact tl th.
Proof.
  intros U. unfold EV_pulseIsValid, tick_add. now rewrite wrap16_small.
Qed.

Lemma EV_PrembleCheck_no_wrap tl th :
  is_u16 (40 * th) -> EV_PrembleCheck Wrap16 tl th = EV_PrembleCheck Exact tl th.
Proof.
  intros U. unfold EV_PrembleCheck, tick_mul.
  rewrite !wrap16_small; [reflexivity | exact U | unfold is_u16 in *; lia].
Qed.

Lemma onPulsePair_no_wrap d h l :
  is_u16 (l + h) -> is_u16 (40 * h) ->
  onPulsePair Wrap16 d h l = onPulsePair Exact d h l.
Proof.
  intros S M. unfold onPulsePair.
  now rewrite EV_pulseIsValid_no_wrap, EV_PrembleCheck_no_wrap.
Qed.

(** ** One step of the decoder, case by case *)

Section Step.
Variable A : TickArith.
Variables (d : Decoder) (h l : Z).

Lemma onPulsePair_invalid :
  EV_pulseIsValid A l h = false ->
  onPulsePair A d h l = {| state := seeking (state d); frame := frame d |}.
Proof. intros V. unfold onPulsePair. now rewrite V. Qed.

Lemma onPulsePair_preamble :
  EV_pulseIsValid A l h = true -> bitIndex (state d) = -1 ->
  EV_PrembleCheck A l h = true ->
  onPulsePair A d h l =
    {| state := {| bitIndex := 0; accumulator := 0 |}; frame := frame d |}.
Proof. intros V I P. unfold onPulsePair. now rewrite V, I, P. Qed.

Lemma onPulsePair_no_preamble :
  EV_pulseIsValid A l h = true -> bitIndex (state d) = -1 ->
  EV_PrembleCheck A l h = false ->
  onPulsePair A d h l = d.
Proof. intros V I P. unfold onPulsePair. now rewrite V, I, P. Qed.

Lemma onPulsePair_bit :
  EV_pulseIsValid A l h = true ->
  bitIndex (state d) <> -1 -> bitIndex (state d) <> EV_maxIndexData ->
  onPulsePair A d h l =
    {| state :=
         {| bitIndex := bitIndex (state d) + 1;
            accumulator :=
              Z.lor (accumulator (state d))
                    (Z.shiftl (EV_bitCheck l h)
                              (EV_maxIndexData - bitIndex (state d))) |};
       frame := frame d |}.
Proof.
  intros V I J. unfold onPulsePair. rewrite V. cbn [negb].
  destruct (Z.eqb_spec (bitIndex (state d)) (-1)); [contradiction |].
  destruct (Z.eqb_spec (bitIndex (state d) + 1) (EV_maxIndexData + 1));
    [lia | reflexivity].
Qed.

Lemma onPulsePair_last_bit :
  EV_pulseIsValid A l h = true -> bitIndex (state d) = EV_maxIndexData ->
  onPulsePair A d h l =
    let acc := Z.lor (accumulator (state d)) (EV_bitCheck l h) in
    {| state := {| bitIndex := -1; accumulator := acc |};
       frame := write_frame (frame d) acc |}.
Proof.
  intros V I. unfold onPulsePair. rewrite V, I. cbn [negb].
  rewrite Z.sub_diag, Z.shiftl_0_r. reflexivity.
Qed.
End Step.

Lemma phase_seeking s : phase s = SEEKING_PREAMBLE <-> bitIndex s = -1.
Proof.
  unfold phase. destruct (Z.eqb_spec (bitIndex s) (-1)); split; congruence.
Qed.

Lemma phase_collecting s : phase s = COLLECTING_BITS <-> bitIndex s <> -1.
Proof.
  unfold phase. destruct (Z.eqb_spec (bitIndex s) (-1)); split; congruence.
Qed.

Lemma EV_bitCheck_cases tl th : EV_bitCheck tl th = 0 \/ EV_bitCheck tl th = 1.
Proof. unfold EV_bitCheck. destruct Qle_bool; auto. Qed.

(** ** The macros over exact and over 16-bit arithmetic *)

Lemma preamble_pair_bounds tl th :
  EV_pulseIsValid Exact tl th = true -> EV_PrembleCheck Exact tl th = true ->
  0 <= th /\ 0 <= tl /\ 26 * th <= tl + th.
Proof.
  intros V P. apply EV_pulseIsValid_Exact in V. apply EV_PrembleCheck_Exact in P.
  lia.
Qed.

Lemma long_low_never_preamble tl th :
  HPL_Max <= tl ->
  EV_pulseIsValid Exact tl th && EV_PrembleCheck Exact tl th = false.
Proof.
  intros L. apply not_true_is_false. intros E.
  apply andb_true_iff in E as [V P].
  pose proof (preamble_pair_bounds tl th V P).
  apply EV_pulseIsValid_Exact in V. lia.
Qed.

Lemma documented_preamble_invalid :
  EV_PrembleCheck Exact 10000 320 = true /\ EV_pulseIsValid Exact 10000 320 = false
  /\ EV_PrembleCheck Wrap16 10000 320 = true
  /\ EV_pulseIsValid Wrap16 10000 320 = false.
Proof. repeat split. Qed.

(** C8: over exact integers, a pair that passes both [EV_pulseIsValid] and
    [EV_PrembleCheck] has 26 * highTicks < 8500, hence highTicks <= 326 and
    lowTicks < 8500: a LOW of 8500 ticks or more never passes both checks. *)
Theorem valid_preamble_low_below_max (tl th : Z) :
  EV_pulseIsValid Exact tl th = true ->
  EV_PrembleCheck Exact tl th = true ->
  26 * th < 8500 /\ th <= 326 /\ tl < 8500.
Proof.
  intros V P. pose proof (preamble_pair_bounds tl th V P) as B.
  apply EV_pulseIsValid_Exact in V. unfold HPL_min, HPL_Max in V. lia.
Qed.

Lemma valid_preamble_low_below_max_witness :
  26 * 250 < 8500 /\ 250 <= 326 /\ 7750 < 8500.
Proof.
  apply (valid_preamble_low_below_max 7750 250); reflexivity.
Defined.

(** C9: with 16-bit wrap-around, [EV_pulseIsValid] accepts a pair of counter
    values whose true combined duration exceeds the 8500-tick maximum:
    highTicks = 65000 and lowTicks = 1000 sum to 66000, wrap to 464 and are
    classified as valid. *)
Theorem wrapped_sum_passes_validation :
  is_u16 1000 /\ is_u16 65000 /\
  2 ^ 16 <= 1000 + 65000 /\ HPL_Max < 1000 + 65000 /\
  tick_add Wrap16 1000 65000 = 464 /\
  EV_pulseIsValid Wrap16 1000 65000 = true /\
  EV_pulseIsValid Exact 1000 65000 = false.
Proof. unfold is_u16, HPL_Max. repeat split; try lia. Qed.

Lemma mul25_wraps th :
  is_u16 th -> (tick_mul Wrap16 25 th <> 25 * th <-> 2622 <= th).
Proof.
  unfold is_u16, tick_mul, wrap. change (2 ^ 16) with 65536. intros H. split.
  - intros N. destruct (Z.lt_ge_cases th 2622) as [S | S]; [| exact S].
    rewrite Z.mod_small in N by lia. contradiction.
  - intros L E. pose proof (Z.mod_pos_bound (25 * th) 65536 eq_refl). lia.
Qed.

Lemma mul40_wraps th :
  is_u16 th -> (tick_mul Wrap16 40 th <> 40 * th <-> 1639 <= th).
Proof.
  unfold is_u16, tick_mul, wrap. change (2 ^ 16) with 65536. intros H. split.
  - intros N. destruct (Z.lt_ge_cases th 1639) as [S | S]; [| exact S].
    rewrite Z.mod_small in N by lia. contradiction.
  - intros L E. pose proof (Z.mod_pos_bound (40 * th) 65536 eq_refl). lia.
Qed.

(** C10: with 16-bit wrap-around the products of [EV_PrembleCheck] overflow,
    25 * highTicks from highTicks = 2622 on and 40 * highTicks from 1639 on;
    the pair highTicks = 2622, lowTicks = 3000 passes the duration check,
    has a LOW shorter than twice its HIGH, and still passes the preamble
    check. *)
Theorem wrapped_product_passes_preamble (th : Z) :
  is_u16 th ->
  (tick_mul Wrap16 25 th <> 25 * th <-> 2622 <= th) /\
  (tick_mul Wrap16 40 th <> 40 * th <-> 1639 <= th) /\
  is_u16 2622 /\ is_u16 3000 /\
  EV_pulseIsValid Wrap16 3000 2622 = true /\
  3000 < 2 * 2622 /\
  EV_PrembleCheck Exact 3000 2622 = false /\
  EV_PrembleCheck Wrap16 3000 2622 = true.
Proof.
  intros U. split; [now apply mul25_wraps |]. split; [now apply mul40_wraps |].
  unfold is_u16. repeat split; lia.
Qed.

Lemma wrapped_product_passes_preamble_witness :
  tick_mul Wrap16 25 2622 <> 25 * 2622 /\
  EV_PrembleCheck Wrap16 3000 2622 = true.
Proof.
  assert (is_u16 2622) as U by (unfold is_u16; lia).
  split.
  - apply (wrapped_product_passes_preamble 2622 U). lia.
  - apply (wrapped_product_passes_preamble 2622 U).
Defined.

(** ** Validation and the preamble test in the decoder *)







(** ** Bit decoding and the completed frame *)

Lemma EV_bitCheck_one_iff tl th :
  EV_bitCheck tl th = 1 <-> ((3 # 2) * inject_Z tl <= inject_Z th)%Q.
Proof.
  unfold EV_bitCheck.
  destruct (Qle_bool ((3 # 2) * inject_Z tl) (inject_Z th)) eqn:E.
  - apply Qle_bool_iff in E. tauto.
  - split; [discriminate |]. intros L. apply Qle_bool_iff in L. congruence.
Qed.

Lemma lor_bit_testbit_same acc b k :
  0 <= k -> b = 0 \/ b = 1 ->
  Z.testbit (Z.lor acc (Z.shiftl b k)) k = Z.testbit acc k || (b =? 1).
Proof.
  intros K B. rewrite Z.lor_spec, Z.shiftl_spec, Z.sub_diag by lia.
  destruct B as [-> | ->]; reflexivity.
Qed.

Lemma lor_bit_testbit_other acc b k j :
  0 <= k -> b = 0 \/ b = 1 -> j <> k ->
  Z.testbit (Z.lor acc (Z.shiftl b k)) j = Z.testbit acc j.
Proof.
  intros K B J. rewrite Z.lor_spec.
  destruct (Z.lt_ge_cases j 0) as [N | N].
  { now rewrite !Z.testbit_neg_r by lia. }
  rewrite Z.shiftl_spec by lia.
  destruct B as [-> | ->].
  - now rewrite Z.bits_0, orb_false_r.
  - destruct (Z.lt_ge_cases (j - k) 0).
    + rewrite (Z.testbit_neg_r 1) by lia. now rewrite orb_false_r.
    + rewrite (bits_above_pow2 1 1 (j - k)) by lia.
      now rewrite orb_false_r.
Qed.

Lemma accumulator_after_bit A d h l :
  EV_pulseIsValid A l h = true ->
  0 <= bitIndex (state d) <= EV_maxIndexData ->
  accumulator (state (onPulsePair A d h l)) =
  Z.lor (accumulator (state d))
        (Z.shiftl (EV_bitCheck l h) (EV_maxIndexData - bitIndex (state d))).
Proof.
  intros V I.
  destruct (Z.eq_dec (bitIndex (state d)) EV_maxIndexData) as [E | E].
  - rewrite onPulsePair_last_bit by assumption. cbv zeta. cbn [state accumulator].
    now rewrite E, Z.sub_diag, Z.shiftl_0_r.
  - rewrite onPulsePair_bit by (assumption || lia). reflexivity.
Qed.

(** C3: a validated pair met while collecting decodes to 1 exactly when
    highTicks >= 1.5 * lowTicks (equality included) and to 0 otherwise, in
    binary32 as over the rationals; the value is what the step puts in the
    bit slot of the accumulator.  highTicks = 900, lowTicks = 300 gives 1 and
    highTicks = 300, lowTicks = 900 gives 0. *)
Theorem bit_is_one_iff_high_ge_3_2_low (A : TickArith) (d : Decoder) (h l : Z) :
  0 <= bitIndex (state d) <= EV_maxIndexData ->
  EV_pulseIsValid A l h = true ->
  (EV_bitCheck l h = 1 <-> ((3 # 2) * inject_Z l <= inject_Z h)%Q) /\
  (EV_bitCheck l h = 0 <-> ~ ((3 # 2) * inject_Z l <= inject_Z h)%Q) /\
  (2 * h = 3 * l -> EV_bitCheck l h = 1) /\
  (0 <= l < 2 ^ 22 -> 0 <= h < 2 ^ 24 ->
   EV_bitCheck_binary32 l h = EV_bitCheck l h) /\
  (let slot := EV_maxIndexData - bitIndex (state d) in
   Z.testbit (accumulator (state (onPulsePair A d h l))) slot =
     Z.testbit (accumulator (state d)) slot || (EV_bitCheck l h =? 1) /\
   forall j, j <> slot ->
     Z.testbit (accumulator (state (onPulsePair A d h l))) j =
     Z.testbit (accumulator (state d)) j) /\
  EV_bitCheck 300 900 = 1 /\ EV_bitCheck 900 300 = 0.
Proof.
  intros I V. pose proof (EV_bitCheck_one_iff l h) as O.
  pose proof (EV_bitCheck_cases l h) as C.
  split; [exact O |]. split.
  { split.
    - intros Z0 Q. apply O in Q. congruence.
    - intros N. destruct C as [C | C]; [exact C | apply O in C; contradiction]. }
  split.
  { intros E. rewrite EV_bitCheck_spec.
    destruct (Z.leb_spec (3 * l) (2 * h)); [reflexivity | lia]. }
  split; [apply EV_bitCheck_binary32_exact |].
  split; [| split; reflexivity].
  cbv zeta. rewrite accumulator_after_bit by assumption. split.
  - apply lor_bit_testbit_same; [lia | exact C].
  - intros j J. apply lor_bit_testbit_other; [lia | exact C | exact J].
Qed.

Lemma bit_is_one_iff_high_ge_3_2_low_witness :
  let d := {| state := {| bitIndex := 3; accumulator := 0 |};
              frame := Build_ev1527 0 |} in
  EV_bitCheck 200 300 = 1 /\
  Z.testbit (accumulator (state (onPulsePair Exact d 300 200))) 20 = true.
Proof.
  intros d.
  destruct (bit_is_one_iff_high_ge_3_2_low Exact d 300 200)
    as (_ & _ & B & _ & (T & _) & _).
  - cbn. unfold EV_maxIndexData. lia.
  - reflexivity.
  - split; [apply B; lia | exact T].
Defined.

(** ** Bit pulses as a number *)

Lemma pulse_bit_cases p : pulse_bit p = 0 \/ pulse_bit p = 1.
Proof. apply EV_bitCheck_cases. Qed.

Lemma bits_value_snoc bits p :
  bits_value (bits ++ [p]) = shift_in (bits_value bits) p.
Proof. unfold bits_value. now rewrite fold_left_app. Qed.

Lemma fold_shift_in_bound bits :
  forall v, 0 <= v ->
  0 <= fold_left shift_in bits v < (v + 1) * 2 ^ Z.of_nat (length bits).
Proof.
  induction bits as [| p bits IH]; intros v Hv.
  - cbn. lia.
  - cbn [fold_left length]. rewrite Nat2Z.inj_succ, Z.pow_succ_r by lia.
    assert (0 <= shift_in v p <= 2 * v + 1) as B.
    { unfold shift_in. destruct (pulse_bit_cases p); lia. }
    specialize (IH (shift_in v p) (proj1 B)).
    pose proof (Z.pow_pos_nonneg 2 (Z.of_nat (length bits))). nia.
Qed.

Lemma bits_value_bound bits :
  0 <= bits_value bits < 2 ^ Z.of_nat (length bits).
Proof.
  pose proof (fold_shift_in_bound bits 0 (Z.le_refl 0)) as B.
  unfold bits_value. lia.
Qed.

Lemma lor_shift_in v b k :
  0 <= k -> b = 0 \/ b = 1 ->
  Z.lor (v * 2 ^ (k + 1)) (Z.shiftl b k) = (2 * v + b) * 2 ^ k.
Proof.
  intros K B.
  replace (v * 2 ^ (k + 1)) with (Z.shiftl (2 * v) k).
  2:{ rewrite Z.shiftl_mul_pow2, Z.pow_add_r by lia. change (2 ^ 1) with 2. ring. }
  rewrite <- Z.shiftl_lor, Z.shiftl_mul_pow2 by lia. f_equal.
  rewrite <- (Z.add_lor_land (2 * v) b).
  assert (Z.land (2 * v) b = 0) as ->; [| now rewrite Z.add_0_r].
  destruct B as [-> | ->]; [apply Z.land_0_r |].
  change 1 with (Z.ones 1). rewrite Z.land_ones by lia.
  change (2 ^ 1) with 2. rewrite Z.mul_comm. apply Z.mod_mul. lia.
Qed.

(** ** Collecting a frame *)

Lemma run_snoc A d ps p : run A d (ps ++ [p]) = feed A (run A d ps) p.
Proof. unfold run. now rewrite fold_left_app. Qed.

Lemma run_cons A d p ps : run A d (p :: ps) = run A (feed A d p) ps.
Proof. reflexivity. Qed.

Lemma collect_bits A bits :
  forall i v f,
    0 <= i -> i + Z.of_nat (length bits) <= EV_maxIndexData ->
    forallb (valid_pulse A) bits = true ->
    run A {| state := {| bitIndex := i; accumulator := v * 2 ^ (24 - i) |};
             frame := f |} bits =
    {| state :=
         {| bitIndex := i + Z.of_nat (length bits);
            accumulator :=
              fold_left shift_in bits v
              * 2 ^ (24 - (i + Z.of_nat (length bits))) |};
       frame := f |}.
Proof.
  unfold EV_maxIndexData.
  induction bits as [| p bits IH]; intros i v f I L V.
  - cbn. now rewrite Z.add_0_r.
  - cbn [length] in *. rewrite Nat2Z.inj_succ in *.
    cbn [forallb] in V. apply andb_true_iff in V as [Vp V].
    rewrite run_cons. unfold feed at 1.
    rewrite onPulsePair_bit; cbn [state bitIndex accumulator frame];
      [| exact Vp | lia | unfold EV_maxIndexData; lia].
    unfold EV_maxIndexData.
    replace (24 - i) with (23 - i + 1) by lia.
    rewrite lor_shift_in by (lia || apply EV_bitCheck_cases).
    replace (23 - i) with (24 - (i + 1)) by lia.
    rewrite (IH (i + 1) (2 * v + EV_bitCheck (lowTicks p) (highTicks p)) f)
      by (lia || assumption).
    cbn [fold_left].
    change (shift_in v p) with (2 * v + EV_bitCheck (lowTicks p) (highTicks p)).
    now replace (i + Z.succ (Z.of_nat (length bits)))
      with (i + 1 + Z.of_nat (length bits)) by lia.
Qed.

Lemma decode_frame A d pre bits :
  bitIndex (state d) = -1 ->
  valid_pulse A pre = true -> preamble_pulse A pre = true ->
  length bits = 24%nat -> forallb (valid_pulse A) bits = true ->
  run A d (pre :: bits) =
  {| state := {| bitIndex := -1; accumulator := bits_value bits |};
     frame := write_frame (frame d) (bits_value bits) |}.
Proof.
  intros I Vp Pp L V.
  destruct (exists_last (l := bits)) as (front & p & ->).
  { intros ->. discriminate. }
  rewrite length_app in L. cbn [length] in L.
  rewrite forallb_app in V. apply andb_true_iff in V as [Vf Vl].
  cbn [forallb] in Vl. rewrite andb_true_r in Vl.
  rewrite app_comm_cons, run_snoc, run_cons. unfold feed at 2.
  rewrite onPulsePair_preamble by assumption.
  change 0 with (0 * 2 ^ (24 - 0)) at 2.
  rewrite collect_bits by (unfold EV_maxIndexData; lia || assumption).
  unfold feed.
  rewrite onPulsePair_last_bit;
    cbn [state bitIndex accumulator frame];
    [| exact Vl | unfold EV_maxIndexData; lia].
  cbv zeta.
  replace (24 - (0 + Z.of_nat (length front))) with (0 + 1) by lia.
  rewrite <- (Z.shiftl_0_r (EV_bitCheck _ _)).
  rewrite lor_shift_in by (lia || apply EV_bitCheck_cases).
  rewrite bits_value_snoc. unfold shift_in, pulse_bit, bits_value.
  now rewrite Z.pow_0_r, Z.mul_1_r.
Qed.

Lemma frame_view_write_frame e acc :
  0 <= acc < 2 ^ 24 ->
  frame_view (write_frame e acc) =
  {| address := acc / 16; key := acc mod 16; detected := true |}.
Proof.
  intros R. unfold frame_view.
  rewrite write_frame_Address, write_frame_Keys, write_frame_Detect.
  rewrite (Z.mod_small (acc / 16)); [reflexivity |].
  change (2 ^ 24) with (16 * 2 ^ 20) in R.
  split; [apply Z.div_pos; lia | apply Z.div_lt_upper_bound; lia].
Qed.

Lemma readFrame_decode_frame A d pre bits :
  bitIndex (state d) = -1 ->
  valid_pulse A pre = true -> preamble_pulse A pre = true ->
  length bits = 24%nat -> forallb (valid_pulse A) bits = true ->
  readFrame (run A d (pre :: bits)) =
  {| address := bits_value bits / 16; key := bits_value bits mod 16;
     detected := true |}.
Proof.
  intros I Vp Pp L V. rewrite decode_frame by assumption.
  unfold readFrame. cbn [frame]. apply frame_view_write_frame.
  pose proof (bits_value_bound bits) as B. now rewrite L in B.
Qed.

(** ** The completed frame in the packed word *)

Lemma rawValue_low24 e :
  rawValue e mod 2 ^ 24 = Bits.Address e + 2 ^ 20 * Bits.Keys e.
Proof. apply raw_low24. Qed.

Lemma Detect_bit e : Bits.Detect e = Z.b2z (Z.testbit (rawValue e) 24).
Proof.
  unfold Bits.Detect, field_get.
  rewrite Z.land_ones, Z.shiftr_div_pow2, Z.testbit_spec' by lia. reflexivity.
Qed.

(** C4, as the code has it: when the pair that fills slot [EV_maxIndexData]
    passes validation, the top 20 bits of the 24-bit accumulator become the
    address and its bottom 4 bits the key, both written together with the
    detection flag, and the machine awaits a preamble again; in the packed
    word the address is bits 0..19, the key bits 20..23 and the flag bit 24,
    the reserved bits being kept. *)
Theorem completed_frame_fields (A : TickArith) (d : Decoder) (h l : Z) :
  bitIndex (state d) = EV_maxIndexData ->
  EV_pulseIsValid A l h = true ->
  let d' := onPulsePair A d h l in
  let acc := Z.lor (accumulator (state d)) (EV_bitCheck l h) in
  address (readFrame d') = Z.shiftr acc 4 mod 2 ^ 20 /\
  key (readFrame d') = Z.land acc 15 /\
  (0 <= acc < 2 ^ 24 -> address (readFrame d') = Z.shiftr acc 4) /\
  detected (readFrame d') = true /\
  phase (state d') = SEEKING_PREAMBLE /\
  rawValue (frame d') mod 2 ^ 24
    = address (readFrame d') + 2 ^ 20 * key (readFrame d') /\
  Z.land (rawValue (frame d')) (Z.ones 20) = address (readFrame d') /\
  Z.land (Z.shiftr (rawValue (frame d')) 20) (Z.ones 4) = key (readFrame d') /\
  Z.testbit (rawValue (frame d')) 24 = true /\
  Bits.Reserve (frame d') = Bits.Reserve (frame d).
Proof.
  intros I V d' acc. subst d'. rewrite onPulsePair_last_bit by assumption.
  cbv zeta. fold acc. unfold readFrame, frame_view.
  cbn [state frame address key detected bitIndex].
  rewrite write_frame_Address, write_frame_Keys, write_frame_Detect,
    write_frame_Reserve.
  assert (Z.shiftr acc 4 = acc / 16) as S by now rewrite Z.shiftr_div_pow2.
  assert (Z.land acc 15 = acc mod 16) as K by apply (Z.land_ones acc 4 ltac:(lia)).
  rewrite S, K. split; [reflexivity |]. split; [reflexivity |]. split.
  { intros R. apply Z.mod_small. change (2 ^ 24) with (16 * 2 ^ 20) in R.
    split; [apply Z.div_pos; lia | apply Z.div_lt_upper_bound; lia]. }
  split; [reflexivity |]. split; [reflexivity |]. split.
  { rewrite rawValue_low24. now rewrite write_frame_Address, write_frame_Keys. }
  split.
  { rewrite <- (write_frame_Address (frame d) acc).
    unfold Bits.Address, field_get. now rewrite Z.shiftr_0_r. }
  split.
  { now rewrite <- (write_frame_Keys (frame d) acc). }
  split; [| reflexivity].
  pose proof (write_frame_Detect (frame d) acc) as D.
  rewrite Detect_bit in D. now destruct (Z.testbit _ 24).
Qed.

Lemma completed_frame_fields_witness :
  let d := {| state := {| bitIndex := 23; accumulator := 0x12345A |};
              frame := Build_ev1527 0 |} in
  address (readFrame (onPulsePair Exact d 300 900)) = 0x12345 /\
  key (readFrame (onPulsePair Exact d 300 900)) = 0xA /\
  rawValue (frame (onPulsePair Exact d 300 900)) mod 2 ^ 24
    = 0x12345 + 2 ^ 20 * 0xA.
Proof.
  intros d.
  destruct (completed_frame_fields Exact d 300 900 eq_refl eq_refl)
    as (_ & Hk & Ha & _ & _ & Hr & _).
  rewrite Hr, Ha, Hk; [repeat split | vm_compute; split; [discriminate | reflexivity]].
Defined.

(** C4 as stated fails on the code: after a frame with address 0x12345 and
    key 0xA the low 4 bits of the packed word are 5, not the key, and bits
    4..23 are 0xA1234, not the address. *)
Lemma key_not_in_low_nibble :
  let d := {| state := {| bitIndex := 23; accumulator := 0x12345A |};
              frame := Build_ev1527 0 |} in
  let d' := onPulsePair Exact d 300 900 in
  EV_pulseIsValid Exact 900 300 = true /\
  address (readFrame d') = 0x12345 /\ key (readFrame d') = 0xA /\
  rawValue (frame d') = 0x1A12345 /\
  ~ (Z.land (rawValue (frame d')) (Z.ones 4) = key (readFrame d') /\
     Z.land (Z.shiftr (rawValue (frame d')) 4) (Z.ones 20)
       = address (readFrame d')).
Proof.
  cbv zeta. repeat split. vm_compute. intros [E _]. discriminate.
Qed.

(** ** Whole frames *)


(** C6: a pair that fails the duration check while bits are being collected
    leaves the decoded frame untouched and returns the machine to the wait
    for a preamble; a valid preamble and 24 valid bit pairs fed afterwards
    decode to their own address and key, exactly as from a decoder that never
    saw the aborted attempt. *)
Theorem aborted_frame_leaves_no_trace (A : TickArith) (d : Decoder)
    (bad pre : PulseSample) (bits : list PulseSample) :
  0 <= bitIndex (state d) <= EV_maxIndexData ->
  valid_pulse A bad = false ->
  valid_pulse A pre = true -> preamble_pulse A pre = true ->
  length bits = 24%nat -> forallb (valid_pulse A) bits = true ->
  let d1 := feed A d bad in
  frame d1 = frame d /\ readFrame d1 = readFrame d /\
  phase (state d1) = SEEKING_PREAMBLE /\
  run A d1 (pre :: bits) =
    run A {| state := {| bitIndex := -1; accumulator := 0 |}; frame := frame d |}
        (pre :: bits) /\
  readFrame (run A d1 (pre :: bits)) =
    {| address := bits_value bits / 16; key := bits_value bits mod 16;
       detected := true |}.
Proof.
  intros I Vb Vp Pp L V d1. subst d1. unfold feed at 1 2 3 4 5.
  unfold valid_pulse in Vb. rewrite onPulsePair_invalid by exact Vb.
  cbn [state frame]. repeat split.
  - rewrite !decode_frame by (assumption || reflexivity). reflexivity.
  - apply readFrame_decode_frame; (assumption || reflexivity).
Qed.

Lemma aborted_frame_leaves_no_trace_witness :
  let d := {| state := {| bitIndex := 5; accumulator := 0xF80000 |};
              frame := Build_ev1527 0 |} in
  readFrame
    (run Exact (feed Exact d {| highTicks := 9000; lowTicks := 300 |})
       ({| highTicks := 250; lowTicks := 7750 |} :: nominal_frame 0x12345 0xA)) =
  {| address := 0x12345; key := 0xA; detected := true |}.
Proof.
  intros d.
  apply (aborted_frame_leaves_no_trace Exact d
           {| highTicks := 9000; lowTicks := 300 |}
           {| highTicks := 250; lowTicks := 7750 |}
           (nominal_frame 0x12345 0xA)); try reflexivity.
  cbn. unfold EV_maxIndexData. lia.
Defined.

(** ** The detection flag along a pulse train *)

Lemma complete_frame_in_snoc A ps p f :
  complete_frame_in A ps f -> complete_frame_in A (ps ++ [p]) f.
Proof.
  intros (before & pre & bits & after & E & H).
  exists before, pre, bits, (after ++ [p]). split; [| exact H].
  rewrite E. now rewrite <- !app_assoc, <- app_comm_cons, <- app_assoc.
Qed.

Lemma frame_inv_snoc A ps p e : frame_inv A ps e -> frame_inv A (ps ++ [p]) e.
Proof.
  intros [Z0 | [D C]]; [now left | right].
  split; [exact D | now apply complete_frame_in_snoc].
Qed.

Lemma detected_Detect e : detected (frame_view e) = true <-> Bits.Detect e = 1.
Proof. cbn. apply Z.eqb_eq. Qed.

Lemma Detect_cases e : Bits.Detect e = 0 \/ Bits.Detect e = 1.
Proof. rewrite Detect_bit. destruct (Z.testbit _ 24); auto. Qed.



Lemma inv_step A ps d p :
  collecting_inv A ps (state d) -> frame_inv A ps (frame d) ->
  collecting_inv A (ps ++ [p]) (state (feed A d p)) /\
  frame_inv A (ps ++ [p]) (frame (feed A d p)).
Proof.
  intros C F. unfold feed.
  destruct (valid_pulse A p) eqn:V; unfold valid_pulse in V.
  2:{ rewrite onPulsePair_invalid by exact V. cbn [state frame]. split.
      - now left.
      - now apply frame_inv_snoc. }
  destruct (Z.eq_dec (bitIndex (state d)) (-1)) as [I | I].
  { destruct (preamble_pulse A p) eqn:P; unfold preamble_pulse in P.
    - rewrite onPulsePair_preamble by assumption. cbn [state frame]. split.
      + right. exists ps, p, []. cbn. repeat split; trivial.
        unfold EV_maxIndexData. lia.
      + now apply frame_inv_snoc.
    - rewrite onPulsePair_no_preamble by assumption. split.
      + now left.
      + now apply frame_inv_snoc. }
  destruct C as [C | (before & pre & bits & E & Vp & Pp & Vb & Ib & Lb & Ab)];
    [contradiction |].
  assert (forallb (valid_pulse A) (bits ++ [p]) = true) as Vb'.
  { rewrite forallb_app, Vb. cbn. unfold valid_pulse. now rewrite V. }
  assert (ps ++ [p] = before ++ pre :: (bits ++ [p])) as E'.
  { rewrite E. now rewrite <- app_assoc, <- app_comm_cons. }
  assert (Z.of_nat (length (bits ++ [p])) = bitIndex (state d) + 1) as L'.
  { rewrite length_app. cbn [length]. lia. }
  pose proof (pulse_bit_cases p) as Bp. unfold pulse_bit in Bp.
  unfold EV_maxIndexData in Lb.
  destruct (Z.eq_dec (bitIndex (state d)) EV_maxIndexData) as [J | J].
  - rewrite onPulsePair_last_bit by assumption. cbv zeta. cbn [state frame].
    unfold EV_maxIndexData in J. split; [now left |].
    assert (Z.lor (accumulator (state d))
                  (EV_bitCheck (lowTicks p) (highTicks p))
            = bits_value (bits ++ [p])) as ->.
    { rewrite Ab, J, bits_value_snoc.
      rewrite <- (Z.shiftl_0_r (EV_bitCheck _ _)).
      change (24 - 23) with (0 + 1).
      rewrite lor_shift_in by (lia || assumption).
      unfold shift_in, pulse_bit. now rewrite Z.pow_0_r, Z.mul_1_r. }
    right. split; [apply write_frame_Detect |].
    assert (length (bits ++ [p]) = 24%nat) as L24 by lia.
    rewrite frame_view_write_frame.
    2:{ pose proof (bits_value_bound (bits ++ [p])) as B. now rewrite L24 in B. }
    exists before, pre, (bits ++ [p]), []. rewrite app_nil_r.
    repeat split; assumption.
  - rewrite onPulsePair_bit by assumption. cbn [state frame]. split.
    + right. exists before, pre, (bits ++ [p]).
      cbn [bitIndex accumulator]. unfold EV_maxIndexData in *.
      repeat split; try assumption; try lia.
      rewrite Ab, bits_value_snoc.
      replace (24 - bitIndex (state d)) with (23 - bitIndex (state d) + 1) by lia.
      rewrite lor_shift_in by (lia || assumption).
      unfold shift_in, pulse_bit. f_equal. f_equal. lia.
    + now apply frame_inv_snoc.
Qed.

Lemma inv_run A d :
  bitIndex (state d) = -1 -> Bits.Detect (frame d) = 0 ->
  forall ps,
    collecting_inv A ps (state (run A d ps)) /\
    frame_inv A ps (frame (run A d ps)).
Proof.
  intros I D ps. induction ps as [| p ps [C F]] using rev_ind.
  - cbn. split; now left.
  - rewrite run_snoc. now apply inv_step.
Qed.

Lemma complete_frame_in_length A ps f :
  complete_frame_in A ps f -> (25 <= length ps)%nat.
Proof.
  intros (before & pre & bits & after & -> & _ & _ & L & _).
  rewrite length_app. cbn [length]. rewrite length_app. lia.
Qed.


(** After the header's example preamble, lowTicks = 10000 and
    highTicks = 320, no 24 pulse pairs whatever set the detection flag, in
    either arithmetic. *)
Lemma documented_preamble_drops_any_frame (A : TickArith) (d : Decoder)
    (bits : list PulseSample) :
  phase (state d) = SEEKING_PREAMBLE -> detected (readFrame d) = false ->
  (length bits <= 24)%nat ->
  detected
    (readFrame
       (run A d ({| highTicks := 320; lowTicks := 10000 |} :: bits))) = false.
Proof.
  intros S D L. apply phase_seeking in S.
  assert (Bits.Detect (frame d) = 0) as D0.
  { destruct (Detect_cases (frame d)) as [Z0 | Z1]; [exact Z0 |].
    apply detected_Detect in Z1. unfold readFrame in D. congruence. }
  rewrite run_cons. unfold feed at 1. cbn [highTicks lowTicks].
  rewrite onPulsePair_invalid by (destruct A; reflexivity).
  destruct (inv_run A {| state := seeking (state d); frame := frame d |}
              eq_refl D0 bits) as [_ F].
  apply not_true_is_false. intros T. unfold readFrame in T.
  apply detected_Detect in T.
  destruct F as [Z0 | [_ C]]; [congruence |].
  apply complete_frame_in_length in C. lia.
Qed.



(** ** The decoder keeps its data in range *)

Lemma lor_bit_below acc b k :
  0 <= acc < 2 ^ 24 -> 0 <= k < 24 -> b = 0 \/ b = 1 ->
  0 <= Z.lor acc (Z.shiftl b k) < 2 ^ 24.
Proof.
  intros R K B.
  assert (0 <= Z.lor acc (Z.shiftl b k)) as N.
  { apply Z.lor_nonneg. split; [lia |]. apply Z.shiftl_nonneg. lia. }
  split; [exact N |]. apply below_pow2_bits; [lia | exact N |].
  intros i Hi. rewrite lor_bit_testbit_other by (lia || assumption).
  now apply (bits_above_pow2 24).
Qed.

Lemma onPulsePair_well_formed A d h l :
  well_formed d -> well_formed (onPulsePair A d h l).
Proof.
  intros (I & R & U). unfold well_formed, EV_maxIndexData in *.
  destruct (EV_pulseIsValid A l h) eqn:V.
  2:{ rewrite onPulsePair_invalid by exact V. cbn. repeat split; lia || apply U. }
  destruct (Z.eq_dec (bitIndex (state d)) (-1)) as [S | S].
  { destruct (EV_PrembleCheck A l h) eqn:P.
    - rewrite onPulsePair_preamble by assumption. cbn. repeat split; lia || apply U.
    - rewrite onPulsePair_no_preamble by assumption. repeat split; lia || apply U. }
  assert (0 <= Z.lor (accumulator (state d))
                     (Z.shiftl (EV_bitCheck l h) (23 - bitIndex (state d)))
          < 2 ^ 24) as R'.
  { apply lor_bit_below; [exact R | lia | apply EV_bitCheck_cases]. }
  destruct (Z.eq_dec (bitIndex (state d)) EV_maxIndexData) as [J | J];
    unfold EV_maxIndexData in J.
  - rewrite onPulsePair_last_bit by assumption. cbv zeta. cbn [state frame bitIndex accumulator].
    rewrite J, Z.sub_diag, Z.shiftl_0_r in R'.
    split; [lia |]. split; [exact R' |]. now apply write_frame_u32.
  - rewrite onPulsePair_bit by assumption. cbn [state frame bitIndex accumulator].
    unfold EV_maxIndexData. split; [lia |]. split; [exact R' | exact U].
Qed.

Lemma power_up_well_formed : well_formed power_up.
Proof. unfold well_formed, is_u32. cbn. unfold EV_maxIndexData. lia. Qed.

Lemma run_well_formed A ps : forall d, well_formed d -> well_formed (run A d ps).
Proof.
  induction ps as [| p ps IH]; intros d W; [exact W |].
  rewrite run_cons. apply IH. now apply onPulsePair_well_formed.
Qed.

(** ** The decoded word as four fields *)

Lemma Reserve_set_Reserve e v :
  Bits.Reserve (Bits.set_Reserve e v) = v mod 2 ^ 7.
Proof.
  unfold Bits.Reserve, Bits.set_Reserve. cbn [rawValue].
  rewrite field_get_set_same by lia. apply Z.land_ones. lia.
Qed.

Lemma Address_set_Reserve e v :
  Bits.Address (Bits.set_Reserve e v) = Bits.Address e.
Proof. apply field_get_set_other; lia. Qed.

Lemma Keys_set_Reserve e v : Bits.Keys (Bits.set_Reserve e v) = Bits.Keys e.
Proof. apply field_get_set_other; lia. Qed.

Lemma Detect_set_Reserve e v :
  Bits.Detect (Bits.set_Reserve e v) = Bits.Detect e.
Proof. apply field_get_set_other; lia. Qed.

Lemma field_get_range pos width raw :
  0 <= width -> 0 <= field_get pos width raw < 2 ^ width.
Proof.
  intros W. unfold field_get. rewrite Z.land_ones by exact W.
  apply Z.mod_pos_bound. now apply Z.pow_pos_nonneg.
Qed.

Lemma rawValue_decompose e :
  is_u32 (rawValue e) ->
  rawValue e = Bits.Address e + 2 ^ 20 * Bits.Keys e
               + 2 ^ 24 * Bits.Detect e + 2 ^ 25 * Bits.Reserve e.
Proof.
  unfold is_u32, Bits.Address, Bits.Keys, Bits.Detect, Bits.Reserve, field_get.
  intros R. rewrite !Z.land_ones, !Z.shiftr_div_pow2 by lia.
  change (2 ^ 0) with 1. rewrite Z.div_1_r.
  change (2 ^ 32) with 4294967296 in R.
  change (2 ^ 25) with 33554432. change (2 ^ 24) with 16777216.
  change (2 ^ 20) with 1048576. change (2 ^ 7) with 128.
  change (2 ^ 4) with 16. change (2 ^ 1) with 2.
  Z.div_mod_to_equations. lia.
Qed.

Lemma set_field_u32 e :
  is_u32 (rawValue e) ->
  forall v,
    is_u32 (rawValue (Bits.set_Address e v)) /\
    is_u32 (rawValue (Bits.set_Keys e v)) /\
    is_u32 (rawValue (Bits.set_Detect e v)) /\
    is_u32 (rawValue (Bits.set_Reserve e v)).
Proof.
  intros R v. repeat split; apply field_set_u32; (lia || exact R).
Qed.

Lemma fields_determine_word e1 e2 :
  is_u32 (rawValue e1) -> is_u32 (rawValue e2) ->
  Bits.Address e1 = Bits.Address e2 -> Bits.Keys e1 = Bits.Keys e2 ->
  Bits.Detect e1 = Bits.Detect e2 -> Bits.Reserve e1 = Bits.Reserve e2 ->
  e1 = e2.
Proof.
  intros R1 R2 A K D V. destruct e1 as [r1], e2 as [r2]. f_equal.
  change r1 with (rawValue (Build_ev1527 r1)).
  change r2 with (rawValue (Build_ev1527 r2)).
  rewrite (rawValue_decompose _ R1), (rawValue_decompose _ R2).
  now rewrite A, K, D, V.
Qed.

(** X1: a bit-field that is assigned and read back gives the assigned value
    truncated to the width of the field: 20 bits for [Address], 4 for
    [Keys], 1 for [Detect] and 7 for [Reserve]; a value that fits is read
    back unchanged. *)
Theorem bitfield_assign_then_read (e : ev1527_T) (v : Z) :
  Bits.Address (Bits.set_Address e v) = v mod 2 ^ 20 /\
  Bits.Keys (Bits.set_Keys e v) = v mod 2 ^ 4 /\
  Bits.Detect (Bits.set_Detect e v) = v mod 2 /\
  Bits.Reserve (Bits.set_Reserve e v) = v mod 2 ^ 7 /\
  (0 <= v < 2 ^ 20 -> Bits.Address (Bits.set_Address e v) = v) /\
  (0 <= v < 2 ^ 4 -> Bits.Keys (Bits.set_Keys e v) = v) /\
  (0 <= v < 2 -> Bits.Detect (Bits.set_Detect e v) = v) /\
  (0 <= v < 2 ^ 7 -> Bits.Reserve (Bits.set_Reserve e v) = v).
Proof.
  rewrite Address_set_Address, Keys_set_Keys, Detect_set_Detect,
    Reserve_set_Reserve.
  repeat split; try (intros R; now apply Z.mod_small).
Qed.

Lemma bitfield_assign_then_read_witness :
  Bits.Address (Bits.set_Address (Build_ev1527 0xFFFFFFFF) 0x12345) = 0x12345 /\
  Bits.Keys (Bits.set_Keys (Build_ev1527 0xFFFFFFFF) 0xA) = 0xA.
Proof.
  split.
  - apply (bitfield_assign_then_read (Build_ev1527 0xFFFFFFFF) 0x12345). lia.
  - apply (bitfield_assign_then_read (Build_ev1527 0xFFFFFFFF) 0xA). lia.
Defined.

(** X2: assigning one bit-field of the word leaves the three other fields as
    they were. *)
Theorem bitfield_assign_keeps_others (e : ev1527_T) (v : Z) :
  (Bits.Keys (Bits.set_Address e v) = Bits.Keys e /\
   Bits.Detect (Bits.set_Address e v) = Bits.Detect e /\
   Bits.Reserve (Bits.set_Address e v) = Bits.Reserve e) /\
  (Bits.Address (Bits.set_Keys e v) = Bits.Address e /\
   Bits.Detect (Bits.set_Keys e v) = Bits.Detect e /\
   Bits.Reserve (Bits.set_Keys e v) = Bits.Reserve e) /\
  (Bits.Address (Bits.set_Detect e v) = Bits.Address e /\
   Bits.Keys (Bits.set_Detect e v) = Bits.Keys e /\
   Bits.Reserve (Bits.set_Detect e v) = Bits.Reserve e) /\
  (Bits.Address (Bits.set_Reserve e v) = Bits.Address e /\
   Bits.Keys (Bits.set_Reserve e v) = Bits.Keys e /\
   Bits.Detect (Bits.set_Reserve e v) = Bits.Detect e).
Proof.
  repeat split; apply field_get_set_other; lia.
Qed.

(** X3: the two members of the union are one 32-bit word: the raw value is
    Address + 2^20 * Keys + 2^24 * Detect + 2^25 * Reserve, each field lying
    in the range of its width. *)
Theorem rawValue_is_its_fields (e : ev1527_T) :
  is_u32 (rawValue e) ->
  rawValue e = Bits.Address e + 2 ^ 20 * Bits.Keys e
               + 2 ^ 24 * Bits.Detect e + 2 ^ 25 * Bits.Reserve e /\
  0 <= Bits.Address e < 2 ^ 20 /\ 0 <= Bits.Keys e < 2 ^ 4 /\
  0 <= Bits.Detect e < 2 /\ 0 <= Bits.Reserve e < 2 ^ 7.
Proof.
  intros R. split; [now apply rawValue_decompose |].
  repeat split; try (apply field_get_range; lia);
    apply (field_get_range 24 1); lia.
Qed.

Lemma rawValue_is_its_fields_witness :
  0x1A12345 = Bits.Address (Build_ev1527 0x1A12345)
              + 2 ^ 20 * Bits.Keys (Build_ev1527 0x1A12345)
              + 2 ^ 24 * Bits.Detect (Build_ev1527 0x1A12345)
              + 2 ^ 25 * Bits.Reserve (Build_ev1527 0x1A12345).
Proof.
  apply (rawValue_is_its_fields (Build_ev1527 0x1A12345)).
  unfold is_u32. cbn [rawValue]. lia.
Defined.

(** X4: two 32-bit words with the same address, keys, detection flag and
    reserved bits are the same word. *)
Theorem equal_fields_equal_words (e1 e2 : ev1527_T) :
  is_u32 (rawValue e1) -> is_u32 (rawValue e2) ->
  Bits.Address e1 = Bits.Address e2 -> Bits.Keys e1 = Bits.Keys e2 ->
  Bits.Detect e1 = Bits.Detect e2 -> Bits.Reserve e1 = Bits.Reserve e2 ->
  rawValue e1 = rawValue e2.
Proof.
  intros R1 R2 A K D V. f_equal. now apply fields_determine_word.
Qed.

Lemma equal_fields_equal_words_witness :
  rawValue (Bits.set_Detect (Build_ev1527 0xA12345) 1) = 0x1A12345.
Proof.
  apply (equal_fields_equal_words
           (Bits.set_Detect (Build_ev1527 0xA12345) 1) (Build_ev1527 0x1A12345));
    try reflexivity; unfold is_u32; cbn; lia.
Defined.

Lemma set_Address_fields e v :
  Bits.Address (Bits.set_Address e v) = v mod 2 ^ 20 /\
  Bits.Keys (Bits.set_Address e v) = Bits.Keys e /\
  Bits.Detect (Bits.set_Address e v) = Bits.Detect e /\
  Bits.Reserve (Bits.set_Address e v) = Bits.Reserve e.
Proof.
  split; [apply Address_set_Address |].
  repeat split; apply field_get_set_other; lia.
Qed.

Lemma set_Keys_fields e v :
  Bits.Address (Bits.set_Keys e v) = Bits.Address e /\
  Bits.Keys (Bits.set_Keys e v) = v mod 2 ^ 4 /\
  Bits.Detect (Bits.set_Keys e v) = Bits.Detect e /\
  Bits.Reserve (Bits.set_Keys e v) = Bits.Reserve e.
Proof.
  split; [apply Address_set_Keys |]. split; [apply Keys_set_Keys |].
  split; apply field_get_set_other; lia.
Qed.

Lemma set_Detect_fields e v :
  Bits.Address (Bits.set_Detect e v) = Bits.Address e /\
  Bits.Keys (Bits.set_Detect e v) = Bits.Keys e /\
  Bits.Detect (Bits.set_Detect e v) = v mod 2 /\
  Bits.Reserve (Bits.set_Detect e v) = Bits.Reserve e.
Proof.
  split; [apply Address_set_Detect |]. split; [apply Keys_set_Detect |].
  split; [apply Detect_set_Detect | apply field_get_set_other; lia].
Qed.

Ltac same_fields :=
  apply fields_determine_word;
  [ repeat apply field_set_u32; (lia || assumption)
  | repeat apply field_set_u32; (lia || assumption)
  | .. ];
  unfold Bits.set_Address, Bits.set_Keys, Bits.set_Detect, Bits.set_Reserve,
    Bits.Address, Bits.Keys, Bits.Detect, Bits.Reserve; cbn [rawValue];
  repeat first
    [ rewrite field_get_set_same by lia
    | rewrite field_get_set_other by lia ];
  reflexivity.

(** X5: on a 32-bit word, assignments to different bit-fields commute, for
    each of the six pairs of the fields [Address], [Keys], [Detect] and
    [Reserve], and of two assignments to the same field the later one
    stands, for each of the four fields. *)
Theorem bitfield_assignments_compose (e : ev1527_T) (a k f r v : Z) :
  is_u32 (rawValue e) ->
  (Bits.set_Keys (Bits.set_Address e a) k
     = Bits.set_Address (Bits.set_Keys e k) a /\
   Bits.set_Detect (Bits.set_Address e a) f
     = Bits.set_Address (Bits.set_Detect e f) a /\
   Bits.set_Reserve (Bits.set_Address e a) r
     = Bits.set_Address (Bits.set_Reserve e r) a /\
   Bits.set_Detect (Bits.set_Keys e k) f
     = Bits.set_Keys (Bits.set_Detect e f) k /\
   Bits.set_Reserve (Bits.set_Keys e k) r
     = Bits.set_Keys (Bits.set_Reserve e r) k /\
   Bits.set_Reserve (Bits.set_Detect e f) r
     = Bits.set_Detect (Bits.set_Reserve e r) f) /\
  (Bits.set_Address (Bits.set_Address e v) a = Bits.set_Address e a /\
   Bits.set_Keys (Bits.set_Keys e v) k = Bits.set_Keys e k /\
   Bits.set_Detect (Bits.set_Detect e v) f = Bits.set_Detect e f /\
   Bits.set_Reserve (Bits.set_Reserve e v) r = Bits.set_Reserve e r).
Proof.
  intros R. repeat split; same_fields.
Qed.

Lemma bitfield_assignments_compose_witness :
  Bits.set_Keys (Bits.set_Address (Build_ev1527 0) 0x12345) 0xA
  = Bits.set_Address (Bits.set_Keys (Build_ev1527 0) 0xA) 0x12345 /\
  Bits.set_Reserve (Bits.set_Detect (Build_ev1527 0) 1) 0x55
  = Bits.set_Detect (Bits.set_Reserve (Build_ev1527 0) 0x55) 1 /\
  Bits.set_Reserve (Bits.set_Reserve (Build_ev1527 0) 3) 0x55
  = Bits.set_Reserve (Build_ev1527 0) 0x55.
Proof.
  assert (is_u32 (rawValue (Build_ev1527 0))) as R
    by (unfold is_u32; cbn [rawValue]; lia).
  destruct (bitfield_assignments_compose (Build_ev1527 0) 0x12345 0xA 1 0x55 3 R)
    as ((C1 & _ & _ & _ & _ & C6) & (_ & _ & _ & O4)).
  split; [exact C1 |]. split; [exact C6 | exact O4].
Defined.

(** X6: assigning a field of a 32-bit word moves the raw value by the
    change of that field at its position, and the word stays a 32-bit one:
    by new - old for [Address], 2^20 * (new - old) for [Keys] and
    2^24 * (new - old) for [Detect]. *)
Theorem bitfield_assign_raw_change (e : ev1527_T) (v : Z) :
  is_u32 (rawValue e) ->
  rawValue (Bits.set_Address e v)
    = rawValue e + (v mod 2 ^ 20 - Bits.Address e) /\
  rawValue (Bits.set_Keys e v)
    = rawValue e + 2 ^ 20 * (v mod 2 ^ 4 - Bits.Keys e) /\
  rawValue (Bits.set_Detect e v)
    = rawValue e + 2 ^ 24 * (v mod 2 - Bits.Detect e) /\
  is_u32 (rawValue (Bits.set_Address e v)) /\
  is_u32 (rawValue (Bits.set_Keys e v)) /\
  is_u32 (rawValue (Bits.set_Detect e v)).
Proof.
  intros R. destruct (set_field_u32 e R v) as (UA & UK & UD & _).
  pose proof (rawValue_decompose e R) as E.
  pose proof (rawValue_decompose _ UA) as EA.
  pose proof (rawValue_decompose _ UK) as EK.
  pose proof (rawValue_decompose _ UD) as ED.
  destruct (set_Address_fields e v) as (A1 & A2 & A3 & A4).
  destruct (set_Keys_fields e v) as (K1 & K2 & K3 & K4).
  destruct (set_Detect_fields e v) as (D1 & D2 & D3 & D4).
  rewrite A1, A2, A3, A4 in EA. rewrite K1, K2, K3, K4 in EK.
  rewrite D1, D2, D3, D4 in ED.
  repeat split; try assumption; try (apply UA || apply UK || apply UD); lia.
Qed.

Lemma bitfield_assign_raw_change_witness :
  rawValue (Bits.set_Detect (Build_ev1527 0x1A12345) 0) = 0x1A12345 - 2 ^ 24.
Proof.
  assert (is_u32 (rawValue (Build_ev1527 0x1A12345))) as R
    by (unfold is_u32; cbn [rawValue]; lia).
  destruct (bitfield_assign_raw_change (Build_ev1527 0x1A12345) 0 R)
    as (_ & _ & D & _).
  rewrite D. reflexivity.
Defined.

(** X7: the consumer's step of the header's usage example,
    [remote.Bits.Detect = 0], clears the flag and keeps the address, the key
    and the reserved bits of the code just read; done twice it is the same
    as done once. *)
Theorem clearing_detect_keeps_code (e : ev1527_T) :
  is_u32 (rawValue e) ->
  Bits.Detect (Bits.set_Detect e 0) = 0 /\
  Bits.Address (Bits.set_Detect e 0) = Bits.Address e /\
  Bits.Keys (Bits.set_Detect e 0) = Bits.Keys e /\
  Bits.Reserve (Bits.set_Detect e 0) = Bits.Reserve e /\
  rawValue (Bits.set_Detect e 0) = rawValue e - 2 ^ 24 * Bits.Detect e /\
  Bits.set_Detect (Bits.set_Detect e 0) 0 = Bits.set_Detect e 0 /\
  (Bits.Detect e = 0 -> Bits.set_Detect e 0 = e).
Proof.
  intros R. destruct (set_Detect_fields e 0) as (A & K & D & V).
  destruct (set_field_u32 e R 0) as (_ & _ & U & _).
  split; [exact D |]. split; [exact A |]. split; [exact K |].
  split; [exact V |]. split.
  { pose proof (rawValue_decompose e R) as E.
    pose proof (rawValue_decompose _ U) as E0.
    rewrite A, K, D, V in E0. change (0 mod 2) with 0 in E0. lia. }
  split; [same_fields |].
  intros Z0. apply fields_determine_word; try assumption.
  now rewrite D, Z0.
Qed.

Lemma clearing_detect_keeps_code_witness :
  Bits.Address (Bits.set_Detect (Build_ev1527 0x1A12345) 0) = 0x12345 /\
  Bits.Keys (Bits.set_Detect (Build_ev1527 0x1A12345) 0) = 0xA.
Proof.
  assert (is_u32 (rawValue (Build_ev1527 0x1A12345))) as R
    by (unfold is_u32; cbn [rawValue]; lia).
  destruct (clearing_detect_keeps_code (Build_ev1527 0x1A12345) R)
    as (_ & A & K & _).
  rewrite A, K. split; reflexivity.
Defined.

(** ** The macros on the protocol's timing *)

Lemma EV_bitCheck_one tl th : EV_bitCheck tl th = 1 <-> 3 * tl <= 2 * th.
Proof.
  rewrite EV_bitCheck_spec.
  destruct (Z.leb_spec (3 * tl) (2 * th)); split; (lia || discriminate || reflexivity).
Qed.

Lemma EV_bitCheck_zero tl th : EV_bitCheck tl th = 0 <-> 2 * th < 3 * tl.
Proof.
  rewrite EV_bitCheck_spec.
  destruct (Z.leb_spec (3 * tl) (2 * th)); split; (lia || discriminate || reflexivity).
Qed.

Lemma wrap16_sum tl th :
  is_u16 tl -> is_u16 th ->
  tick_add Wrap16 tl th
  = if tl + th <? 2 ^ 16 then tl + th else tl + th - 2 ^ 16.
Proof.
  unfold is_u16, tick_add, wrap. change (2 ^ 16) with 65536. intros L H.
  destruct (Z.ltb_spec (tl + th) 65536).
  - apply Z.mod_small. lia.
  - symmetry. apply (Z.mod_unique _ _ 1); lia.
Qed.

(** X8: on 16-bit counter values, [EV_pulseIsValid] with 16-bit arithmetic
    is true exactly when the true sum lies strictly between 450 and 8500 or,
    one wrap later, strictly between 65986 and 74036; every pair it accepts
    wrongly is of the second kind. *)
Theorem wrapped_validity_ranges (tl th : Z) :
  is_u16 tl -> is_u16 th ->
  (EV_pulseIsValid Wrap16 tl th = true <->
   450 < tl + th < 8500 \/ 65986 < tl + th < 74036) /\
  (EV_pulseIsValid Wrap16 tl th = true ->
   EV_pulseIsValid Exact tl th = false -> 65986 < tl + th < 74036) /\
  (EV_pulseIsValid Exact tl th = true -> EV_pulseIsValid Wrap16 tl th = true).
Proof.
  intros L H.
  assert (EV_pulseIsValid Wrap16 tl th = true <->
          450 < tl + th < 8500 \/ 65986 < tl + th < 74036) as W.
  { unfold EV_pulseIsValid. rewrite wrap16_sum by assumption.
    unfold HPL_min, HPL_Max. change (2 ^ 16) with 65536.
    rewrite andb_true_iff, Z.gtb_ltb, !Z.ltb_lt.
    destruct (Z.ltb_spec (tl + th) 65536); lia. }
  pose proof (EV_pulseIsValid_Exact tl th) as E. unfold HPL_min, HPL_Max in E.
  split; [exact W |]. split.
  - intros T F. apply W in T. destruct T as [T | T]; [| exact T].
    apply E in T. congruence.
  - intros T. apply W. left. now apply E.
Qed.

Lemma wrapped_validity_ranges_witness :
  EV_pulseIsValid Wrap16 1000 65000 = true /\ 65986 < 1000 + 65000 < 74036.
Proof.
  assert (is_u16 1000 /\ is_u16 65000) as [L H] by (unfold is_u16; lia).
  destruct (wrapped_validity_ranges 1000 65000 L H) as (W & F & _).
  split; [apply W; right; lia | apply F; reflexivity].
Defined.

Lemma wrap16_mul40_mid th :
  1639 <= th <= 2621 -> tick_mul Wrap16 40 th = 40 * th - 2 ^ 16.
Proof.
  intros R. unfold tick_mul, wrap. change (2 ^ 16) with 65536.
  symmetry. apply (Z.mod_unique _ _ 1); lia.
Qed.

Lemma wrap16_mul25_low th :
  0 <= th <= 2621 -> tick_mul Wrap16 25 th = 25 * th.
Proof.
  intros R. unfold tick_mul, wrap. change (2 ^ 16) with 65536.
  apply Z.mod_small. lia.
Qed.

Lemma EV_PrembleCheck_mid_false tl th :
  1639 <= th <= 2621 -> EV_PrembleCheck Wrap16 tl th = false.
Proof.
  intros R. unfold EV_PrembleCheck.
  rewrite wrap16_mul40_mid, wrap16_mul25_low by lia.
  change (2 ^ 16) with 65536.
  apply andb_false_iff. rewrite Z.geb_leb, !Z.leb_gt. lia.
Qed.

(** X9: where nothing wraps the 16-bit macros are the exact ones:
    [EV_pulseIsValid] when the sum is below 2^16, [EV_PrembleCheck] when the
    HIGH duration is at most 1638 ticks (40 * 1638 = 65520); and on a pair
    of non-negative durations that passes the exact duration check, the
    16-bit preamble check agrees with the exact one for every HIGH up to
    2621 ticks. *)
Theorem macros_exact_without_wrap (tl th : Z) :
  0 <= tl -> 0 <= th ->
  (tl + th < 2 ^ 16 ->
   EV_pulseIsValid Wrap16 tl th = EV_pulseIsValid Exact tl th) /\
  (th <= 1638 ->
   EV_PrembleCheck Wrap16 tl th = EV_PrembleCheck Exact tl th) /\
  (EV_pulseIsValid Exact tl th = true -> th <= 2621 ->
   EV_pulseIsValid Wrap16 tl th = true /\
   EV_PrembleCheck Wrap16 tl th = EV_PrembleCheck Exact tl th).
Proof.
  intros L H.
  assert (th <= 1638 ->
          EV_PrembleCheck Wrap16 tl th = EV_PrembleCheck Exact tl th) as P.
  { intros S. apply EV_PrembleCheck_no_wrap.
    unfold is_u16. change (2 ^ 16) with 65536. lia. }
  split; [intros S; apply EV_pulseIsValid_no_wrap; unfold is_u16; lia |].
  split; [exact P |].
  intros V S. pose proof V as V'. apply EV_pulseIsValid_Exact in V'.
  unfold HPL_min, HPL_Max in V'. split.
  - rewrite EV_pulseIsValid_no_wrap; [exact V |].
    unfold is_u16. change (2 ^ 16) with 65536. lia.
  - destruct (Z.le_gt_cases th 1638) as [S' | S']; [now apply P |].
    rewrite EV_PrembleCheck_mid_false by lia.
    symmetry. apply not_true_is_false. intros T.
    apply EV_PrembleCheck_Exact in T. lia.
Qed.

Lemma macros_exact_without_wrap_witness :
  EV_PrembleCheck Wrap16 7750 250 = EV_PrembleCheck Exact 7750 250 /\
  EV_PrembleCheck Wrap16 3000 2621 = EV_PrembleCheck Exact 3000 2621.
Proof.
  destruct (macros_exact_without_wrap 7750 250) as (_ & P & _); [lia | lia |].
  destruct (macros_exact_without_wrap 3000 2621) as (_ & _ & V); [lia | lia |].
  split; [apply P; lia | apply V; [reflexivity | lia]].
Defined.

(** X10: with 16-bit products [EV_PrembleCheck] rejects every LOW duration
    when the HIGH duration is between 1639 and 2621 ticks: 40 * HIGH has
    wrapped below 25 * HIGH, which has not.  The exact check accepts a LOW of
    25 * HIGH there, a 16-bit value. *)
Theorem wrapped_preamble_never_accepts_mid_high (tl th : Z) :
  1639 <= th <= 2621 ->
  EV_PrembleCheck Wrap16 tl th = false /\
  tick_mul Wrap16 40 th < tick_mul Wrap16 25 th /\
  is_u16 (25 * th) /\ EV_PrembleCheck Exact (25 * th) th = true.
Proof.
  intros R. split; [now apply EV_PrembleCheck_mid_false |].
  rewrite wrap16_mul40_mid, wrap16_mul25_low by lia.
  unfold is_u16. change (2 ^ 16) with 65536.
  split; [lia |]. split; [lia |].
  apply EV_PrembleCheck_Exact. lia.
Qed.

Lemma wrapped_preamble_never_accepts_mid_high_witness :
  EV_PrembleCheck Wrap16 50000 2000 = false /\
  EV_PrembleCheck Exact (25 * 2000) 2000 = true.
Proof.
  destruct (wrapped_preamble_never_accepts_mid_high 50000 2000) as (F & _ & _ & T);
    [lia | now split].
Defined.

(** X11: the threshold of [EV_bitCheck] read on the header's bit timing of
    base period T > 0.  Logic 1 (HIGH 3T, LOW T) reads 1 and logic 0 (HIGH T,
    LOW 3T) reads 0; a logic 1 whose HIGH is shortened and LOW lengthened by
    d still reads 1 exactly while 5d <= 3T, and a logic 0 whose HIGH is
    lengthened and LOW shortened by d still reads 0 exactly while 5d < 7T. *)
Theorem bit_timing_margins (T d : Z) :
  0 < T ->
  EV_bitCheck T (3 * T) = 1 /\ EV_bitCheck (3 * T) T = 0 /\
  (EV_bitCheck (T + d) (3 * T - d) = 1 <-> 5 * d <= 3 * T) /\
  (EV_bitCheck (3 * T - d) (T + d) = 0 <-> 5 * d < 7 * T).
Proof.
  intros P. rewrite !EV_bitCheck_one, !EV_bitCheck_zero. lia.
Qed.

Lemma bit_timing_margins_witness :
  EV_bitCheck 300 900 = 1 /\ EV_bitCheck (300 + 180) (900 - 180) = 1
  /\ EV_bitCheck (300 + 181) (900 - 181) = 0.
Proof.
  destruct (bit_timing_margins 300 180) as (N & _ & M & _); [lia |].
  destruct (bit_timing_margins 300 181) as (_ & _ & M' & _); [lia |].
  split; [exact N |]. split; [apply M; lia |].
  destruct (EV_bitCheck_cases (300 + 181) (900 - 181)) as [Z0 | O];
    [exact Z0 | apply M' in O; lia].
Defined.

(** X12: [EV_bitCheck] is monotone: a pair that reads 1 still reads 1 when
    its HIGH grows or its LOW shrinks, and a pair that reads 0 still reads 0
    when its HIGH shrinks or its LOW grows. *)
Theorem bit_check_monotone (tl th tl' th' : Z) :
  tl' <= tl -> th <= th' ->
  (EV_bitCheck tl th = 1 -> EV_bitCheck tl' th' = 1) /\
  (EV_bitCheck tl' th' = 0 -> EV_bitCheck tl th = 0).
Proof.
  intros L H. rewrite !EV_bitCheck_one, !EV_bitCheck_zero. lia.
Qed.

Lemma bit_check_monotone_witness : EV_bitCheck 250 950 = 1.
Proof.
  apply (bit_check_monotone 300 900 250 950); (lia || reflexivity).
Defined.

(** X13: the header's frame timing of base period T (preamble HIGH T and
    LOW 31T, data bits HIGH and LOW of T and 3T) against the thresholds.
    The preamble passes the ratio test for every T >= 0 and the duration
    check exactly for 15 <= T <= 265; a data bit passes the duration check
    exactly for 113 <= T <= 2124; so preamble and bits all pass exactly for
    113 <= T <= 265. *)
Theorem nominal_timing_window (T : Z) :
  (EV_PrembleCheck Exact (31 * T) T = true <-> 0 <= T) /\
  (EV_pulseIsValid Exact (31 * T) T = true <-> 15 <= T <= 265) /\
  (EV_pulseIsValid Exact T (3 * T) = true <-> 113 <= T <= 2124) /\
  (EV_pulseIsValid Exact (3 * T) T = true <-> 113 <= T <= 2124) /\
  (EV_pulseIsValid Exact (31 * T) T && EV_PrembleCheck Exact (31 * T) T
   && EV_pulseIsValid Exact T (3 * T) && EV_pulseIsValid Exact (3 * T) T = true
   <-> 113 <= T <= 265) /\
  (113 <= T <= 265 ->
   EV_pulseIsValid Wrap16 (31 * T) T = true /\
   EV_PrembleCheck Wrap16 (31 * T) T = true /\
   EV_pulseIsValid Wrap16 T (3 * T) = true /\
   EV_pulseIsValid Wrap16 (3 * T) T = true).
Proof.
  pose proof (EV_PrembleCheck_Exact (31 * T) T) as P.
  pose proof (EV_pulseIsValid_Exact (31 * T) T) as V.
  pose proof (EV_pulseIsValid_Exact T (3 * T)) as V1.
  pose proof (EV_pulseIsValid_Exact (3 * T) T) as V0.
  unfold HPL_min, HPL_Max in *.
  assert (EV_PrembleCheck Exact (31 * T) T = true <-> 0 <= T) as P'
    by (rewrite P; lia).
  assert (EV_pulseIsValid Exact (31 * T) T = true <-> 15 <= T <= 265) as V'
    by (rewrite V; lia).
  assert (EV_pulseIsValid Exact T (3 * T) = true <-> 113 <= T <= 2124) as V1'
    by (rewrite V1; lia).
  assert (EV_pulseIsValid Exact (3 * T) T = true <-> 113 <= T <= 2124) as V0'
    by (rewrite V0; lia).
  split; [exact P' |]. split; [exact V' |]. split; [exact V1' |].
  split; [exact V0' |]. split.
  - rewrite !andb_true_iff, P', V', V1', V0'. lia.
  - intros R.
    rewrite !EV_pulseIsValid_no_wrap, EV_PrembleCheck_no_wrap
      by (unfold is_u16; change (2 ^ 16) with 65536; lia).
    rewrite P', V', V1', V0'. lia.
Qed.

Lemma nominal_timing_window_witness :
  EV_pulseIsValid Wrap16 (31 * 250) 250 = true /\
  EV_PrembleCheck Wrap16 (31 * 250) 250 = true.
Proof.
  destruct (nominal_timing_window 250) as (_ & _ & _ & _ & _ & W).
  destruct W as (V & P & _); [lia | now split].
Defined.

(** X14: over exact integers a pair with a positive HIGH that passes
    [EV_PrembleCheck] reads 0 under [EV_bitCheck], so a pair that reads 1
    is never taken for a preamble; neither are the header's data bits (HIGH
    and LOW of T and 3T, T > 0), whose LOW is at most 3 times their HIGH. *)
Theorem preamble_is_never_a_one (tl th T : Z) :
  0 < th -> 0 < T ->
  (EV_PrembleCheck Exact tl th = true -> EV_bitCheck tl th = 0) /\
  (EV_bitCheck tl th = 1 -> EV_PrembleCheck Exact tl th = false) /\
  (tl <= 3 * th -> EV_PrembleCheck Exact tl th = false) /\
  EV_PrembleCheck Exact T (3 * T) = false /\
  EV_PrembleCheck Exact (3 * T) T = false.
Proof.
  intros H P.
  assert (forall l h, 0 < h -> l < 25 * h -> EV_PrembleCheck Exact l h = false)
    as F.
  { intros l h Hh Hl. apply not_true_is_false. intros E.
    apply EV_PrembleCheck_Exact in E. lia. }
  split.
  { intros E. apply EV_PrembleCheck_Exact in E. apply EV_bitCheck_zero. lia. }
  split.
  { intros E. apply EV_bitCheck_one in E. apply F; lia. }
  split; [intros S; apply F; lia |].
  split; apply F; lia.
Qed.

Lemma preamble_is_never_a_one_witness :
  EV_bitCheck 7750 250 = 0 /\ EV_PrembleCheck Exact 300 900 = false.
Proof.
  destruct (preamble_is_never_a_one 7750 250 300) as (Z0 & _); [lia | lia |].
  destruct (preamble_is_never_a_one 300 900 300) as (_ & O & _); [lia | lia |].
  split; [apply Z0; reflexivity | apply O; reflexivity].
Defined.

(** X15: on the values the code can meet, the floating-point comparison of
    [EV_bitCheck] in binary32 is the integer test 3 * LOW <= 2 * HIGH with no
    rounding: on every pair of 16-bit counter values, and on every pair of
    non-negative durations that passes the exact duration check. *)
Theorem bit_check_binary32_is_integer_test (tl th : Z) :
  (is_u16 tl -> is_u16 th ->
   EV_bitCheck_binary32 tl th = (if 3 * tl <=? 2 * th then 1 else 0)) /\
  (0 <= tl -> 0 <= th -> EV_pulseIsValid Exact tl th = true ->
   EV_bitCheck_binary32 tl th = (if 3 * tl <=? 2 * th then 1 else 0)).
Proof.
  split.
  - unfold is_u16. change (2 ^ 16) with 65536. intros L H.
    rewrite EV_bitCheck_binary32_exact, EV_bitCheck_spec;
      [reflexivity | |]; [change (2 ^ 22) with 4194304
                         | change (2 ^ 24) with 16777216]; lia.
  - intros L H V. apply EV_pulseIsValid_Exact in V. unfold HPL_Max in V.
    rewrite EV_bitCheck_binary32_exact, EV_bitCheck_spec;
      [reflexivity | |]; [change (2 ^ 22) with 4194304
                         | change (2 ^ 24) with 16777216]; lia.
Qed.

Lemma bit_check_binary32_is_integer_test_witness :
  EV_bitCheck_binary32 200 300 = 1 /\ EV_bitCheck_binary32 201 300 = 0.
Proof.
  assert (is_u16 200 /\ is_u16 201 /\ is_u16 300) as (A & B & C)
    by (unfold is_u16; lia).
  split.
  - now rewrite (proj1 (bit_check_binary32_is_integer_test 200 300) A C).
  - now rewrite (proj1 (bit_check_binary32_is_integer_test 201 300) B C).
Defined.
